(** * Ristretto cache: expiration wheel, store, cache coordinator, flags, calloc

    A shallow embedding of the Go sources and the properties proved about
    them.  Go integers are modelled as [Z] with their wrap-around written
    out, Go maps as stdpp's [gmap], [interface{}] values as an abstract type
    with a distinguished [nil], and calls on collaborators whose code lives
    elsewhere (store, policy, ring buffer, user callbacks) as entries of a
    call log, so that "calls X" and "invokes Y exactly once" are statements
    about that log. *)

From Stdlib Require Import ZArith Lia List Ascii String.
From stdpp Require Import gmap strings list fin_maps.

Local Open Scope Z_scope.

(** ** Machine integers *)

Module GoInt.

(** [uint64] arithmetic: the result of an operation reduced modulo 2^64. *)
Definition wrapU64 (z : Z) : Z := z mod 2 ^ 64.

(** [int64] arithmetic: two's complement wrap-around into [-2^63, 2^63). *)
Definition wrapI64 (z : Z) : Z := (z + 2 ^ 63) mod 2 ^ 64 - 2 ^ 63.

Definition inI64 (z : Z) : Prop := - 2 ^ 63 <= z < 2 ^ 63.
Definition inU64 (z : Z) : Prop := 0 <= z < 2 ^ 64.

(** [^uint64(0)]: all 64 bits set. *)
Definition allOnes64 : Z := 2 ^ 64 - 1.

End GoInt.

(** ** The expiration wheel (ttl.go) *)

Module Ttl.

Definition bucketSizeSecs : Z := 5.

(** A [time.Time]: the instant as seconds since the Unix epoch plus
    nanoseconds, and the offset east of UTC of its location, which is what
    the clock-face accessors ([Second], [Minute], ...) are computed in. *)
Record Time : Type := mkTime
    { unixSec : Z;
      nsec : Z;
      zoneOffset : Z }.

(** Seconds from January 1, year 1 (Go's zero [Time]) to the Unix epoch. *)
Definition unixToInternal : Z := 62135596800.

(** [t.IsZero()]: the instant January 1, year 1, 00:00:00 UTC. *)
Definition IsZero (t : Time) : bool :=
    (unixSec t + unixToInternal =? 0) && (nsec t =? 0).

(** [t.Second()]: the second offset within the minute, in [0, 59]. *)
Definition Second (t : Time) : Z := (unixSec t + zoneOffset t) mod 60.

(** [t.Unix()]. *)
Definition Unix (t : Time) : Z := unixSec t.

(** [func timeToBucket(t time.Time) int { return t.Second() / bucketSizeSecs }]
    Go's integer division truncates, hence [Z.quot]. *)
Definition timeToBucket (t : Time) : Z := Z.quot (Second t) bucketSizeSecs.

(** [type bucket map[uint64]uint64] (key to conflict) and the
    [buckets map[int]bucket] field of [expirationMap]. *)
Abbreviation bucket := (gmap Z Z).
Abbreviation expirationMap := (gmap Z (gmap Z Z)).

Definition newExpirationMap : expirationMap := ∅.

(** [m.buckets[bucketNum]] read as a Go map value: the nil map, which
    behaves as the empty one for reads and [range], when absent. *)
Definition bucketAt (m : expirationMap) (bucketNum : Z) : bucket :=
    default ∅ (m !! bucketNum).

Definition Add (m : expirationMap) (key conflict : Z) (expiration : Time)
    : expirationMap :=
    if IsZero expiration then m
    else
      let bucketNum := timeToBucket expiration in
      let m1 := match m !! bucketNum with
                | Some _ => m
                | None => <[bucketNum := ∅]> m
                end in
      <[bucketNum := <[key := conflict]> (bucketAt m1 bucketNum)]> m1.

Definition Delete (m : expirationMap) (key : Z) (expiration : Time)
    : expirationMap :=
    let bucketNum := timeToBucket expiration in
    match m !! bucketNum with
    | None => m
    | Some b => <[bucketNum := delete key b]> m
    end.

(** The calls [CleanUp] can make on its collaborators.  [PolicyDel] is part
    of the policy interface and is listed so that its absence from a log
    can be stated. *)
Inductive Call (V : Type) : Type :=
  | StoreDel (key conflict : Z)
  | PolicyCost (key : Z)
  | PolicyDel (key : Z)
  | OnEvict (key conflict : Z) (value : V) (cost : Z).
Arguments StoreDel {V} key conflict.
Arguments PolicyCost {V} key.
Arguments PolicyDel {V} key.
Arguments OnEvict {V} key conflict value cost.

(** A user callback: only the fact that it is non-nil, and the calls made
    on it, are observable here. *)
Variant callback : Type := userFunc.

Section CleanUp.
(** [V] is the type of stored values, [S] and [P] the states of the store
    and of the policy.  Their interfaces are declared outside ttl.go and are
    taken as given operations on those states: [store.Del(key, conflict)]
    returns the stored conflict and value, [policy.Cost(key)] the cost. *)
Context {V S P : Type}.
Variable storeDel : S -> Z -> Z -> S * (Z * V).
Variable policyCost : P -> Z -> P * Z.
(** The order in which [range] visits a bucket: unspecified in Go, so any
    enumeration of the bucket's entries. *)
Variable rangeOrder : bucket -> list (Z * Z).

Record cleaned : Type := mkCleaned
      { c_buckets : expirationMap;
        c_store : S;
        c_policy : P;
        c_calls : list (Call V) }.

(** The body of [for key, conflict := range keys]. *)
Definition evictOne (onEvict : option callback) (s : S) (p : P)
        (key conflict : Z) : S * P * list (Call V) :=
      let '(s1, (_, value)) := storeDel s key 0 in
      let '(p1, cost) := policyCost p key in
      (s1, p1,
       StoreDel key 0 :: PolicyCost key ::
         match onEvict with
         | Some _ => [OnEvict key conflict value cost]
         | None => []
         end).

Fixpoint evictAll (onEvict : option callback) (keys : list (Z * Z))
        (s : S) (p : P) : S * P * list (Call V) :=
      match keys with
      | [] => (s, p, [])
      | (key, conflict) :: rest =>
          let '(s1, p1, calls1) := evictOne onEvict s p key conflict in
          let '(s2, p2, calls2) := evictAll onEvict rest s1 p1 in
          (s2, p2, calls1 ++ calls2)
      end.

(** The bucket number [CleanUp] works on at wall-clock time [now]. *)
Definition cleanUpBucket (now : Time) : Z := timeToBucket now - 1.

(** [func (m *expirationMap) CleanUp(store, policy, onEvict)], with the
    reading of the clock [time.Now()] passed in as [now]. *)
Definition CleanUp (m : expirationMap) (now : Time) (store : S) (policy : P)
        (onEvict : option callback) : cleaned :=
      let bucketNum := cleanUpBucket now in
      let keys := bucketAt m bucketNum in
      let m' := delete bucketNum m in
      let '(s', p', calls) := evictAll onEvict (rangeOrder keys) store policy in
      mkCleaned m' s' p' calls.

End CleanUp.

(** Projections of a call log. *)
Definition storeDels {V} (l : list (Call V)) : list (Z * Z) :=
    omap (fun c => match c with StoreDel k c => Some (k, c) | _ => None end) l.
Definition policyCosts {V} (l : list (Call V)) : list Z :=
    omap (fun c => match c with PolicyCost k => Some k | _ => None end) l.
Definition policyDels {V} (l : list (Call V)) : list Z :=
    omap (fun c => match c with PolicyDel k => Some k | _ => None end) l.
Definition onEvicts {V} (l : list (Call V)) : list (Z * Z * V * Z) :=
    omap (fun c => match c with OnEvict k c v w => Some (k, c, v, w) | _ => None end) l.

(** An instant of UTC given by its Unix seconds. *)
Definition utc (sec : Z) : Time := mkTime sec 0 0.

(** [t.Add(d)] for a whole number of seconds. *)
Definition addSeconds (t : Time) (d : Z) : Time :=
    mkTime (unixSec t + d) (nsec t) (zoneOffset t).

End Ttl.

(** ** The key-value store (store.go) *)

Module Store.

Section Store.
(** Keys are [uint64] in store.go; the coordinator of cache.go uses the same
    operations with [string] keys, so the key type is left open.  [V] is
    [interface{}], [nil] its nil value. *)
Context {K : Type} `{Countable K} {V : Type}.
Variable nil : V.

(** [syncMap] embeds a [*sync.Map], [lockedMap] guards a Go map with a
    [sync.RWMutex]; one call at a time, both are finite maps. *)
Definition newSyncMap : gmap K V := ∅.
Definition newLockedMap : gmap K V := ∅.
Definition newStore : gmap K V := newSyncMap.

(** [value, _ := m.Load(key); return value]: nil when the key is absent. *)
Definition syncMap_Get (m : gmap K V) (key : K) : V :=
  match m !! key with
  | Some value => value
  | None => nil
  end.

(** [m.Store(key, value)] *)
Definition syncMap_Set (m : gmap K V) (key : K) (value : V) : gmap K V :=
  <[key := value]> m.

(** [m.Delete(key)] *)
Definition syncMap_Del (m : gmap K V) (key : K) : gmap K V :=
  delete key m.

(** [return m.data[key]]: the zero value of [interface{}], nil, when absent. *)
Definition lockedMap_Get (m : gmap K V) (key : K) : V :=
  default nil (m !! key).

(** [m.data[key] = value] *)
Definition lockedMap_Set (m : gmap K V) (key : K) (value : V) : gmap K V :=
  <[key := value]> m.

(** [delete(m.data, key)] *)
Definition lockedMap_Del (m : gmap K V) (key : K) : gmap K V :=
  delete key m.

End Store.

(** The record the store tests put into a store: a value tagged with its key
    and with the conflict hash of its owner. *)
Record storeItem (A : Type) : Type := mkStoreItem
  { key : Z;
    conflict : Z;
    value : A }.
Arguments mkStoreItem {A} key conflict value.
Arguments key {A} s.
Arguments conflict {A} s.
Arguments value {A} s.

End Store.

(** ** The cache coordinator (cache.go) *)

Module Cache.

(** What a call returns: normally, or not at all because it panicked. *)
Inductive outcome (A : Type) : Type :=
| Returned (a : A)
| Panicked.
Arguments Returned {A} a.
Arguments Panicked {A}.

Variant callback : Type := userFunc.

Record Config : Type := mkConfig
  { NumCounters : Z;
    MaxCost : Z;
    BufferItems : Z;
    OnEvict : option callback;
    Log : bool }.

(** [RingConfig]: the consumer is the policy itself, held by reference; see
    [bufPush] below. *)
Record RingConfig : Type := mkRingConfig
  { Capacity : Z }.

Section Cache.
(** [V]: the values ([interface{}], with [nil]); [P]: the state of the
    policy; [B]: the state of the ring buffer; [Elem]: the buffer's
    [Element] type.  The policy, the recorder and the buffer are declared in
    files that are not part of these sources; they are taken as given
    operations on their own state.  The buffer was built with the policy as
    its consumer, so a push may also change the policy; neither of them
    writes to the data map. *)
Context {V P B Elem : Type}.
Variable nil : V.

(** Modelled from the spec: the [Map] held in the field [data], whose
    declaration ([NewMap], [Get], [Set], [Del]) is not part of these sources:
    a "map from key to value", here the store of store.go keyed by the
    cache's string keys. *)
Definition NewMap : gmap string V := Store.newStore.
Definition Map_Get (m : gmap string V) (key : string) : V :=
  Store.syncMap_Get nil m key.
Definition Map_Set (m : gmap string V) (key : string) (val : V)
  : gmap string V := Store.syncMap_Set m key val.
Definition Map_Del (m : gmap string V) (key : string) : gmap string V :=
  Store.syncMap_Del m key.

Record Collaborators : Type := mkCollaborators
  { newPolicy : Z -> Z -> P;
    NewRecorder : P -> gmap string V -> P;
    policyAdd : P -> string -> Z -> P * (list string * bool);
    policyDel : P -> string -> P;
    policyRes : P -> P;
    NewBuffer : RingConfig -> B;
    bufPush : B -> P -> Elem -> B * P;
    Element : string -> Elem }.

Variable env : Collaborators.

Record Cache : Type := mkCache
  { data : gmap string V;
    policy : P;
    buffer : B;
    notify : option callback;
    used : Z;
    size : Z }.

(** The calls a cache operation makes, in order. *)
Inductive Call : Type :=
| BufferPush (e : Elem)
| PolicyAdd (key : string) (cost : Z)
| PolicyDel (key : string)
| PolicyRes
| DataGet (key : string)
| DataSet (key : string) (val : V)
| DataDel (key : string)
| Notify (victim : string).

(** [func NewCache(config *Config) *Cache]: a nil [config] is dereferenced
    by the first statement.  The second component is the caller's [Config]
    after the call ([MaxCost] may have been written through the pointer). *)
Definition NewCache (config : option Config) : outcome (Cache * Config) :=
  match config with
  | None => Panicked
  | Some config0 =>
      let config1 :=
        if (MaxCost config0 =? 0) && negb (NumCounters config0 =? 0)
        then mkConfig (NumCounters config0) (NumCounters config0)
                      (BufferItems config0) (OnEvict config0) (Log config0)
        else config0 in
      let data0 : gmap string V := NewMap in
      let policy0 := newPolicy env (NumCounters config1) (MaxCost config1) in
      let policy1 := if Log config1 then NewRecorder env policy0 data0
                     else policy0 in
      Returned
        (mkCache data0 policy1
                 (NewBuffer env (mkRingConfig (BufferItems config1)))
                 (OnEvict config1) 0 (NumCounters config1),
         config1)
  end.

(** [func (c *Cache) Get(key string) interface{}] *)
Definition Get (c : Cache) (key : string) : V * Cache * list Call :=
  let '(b1, p1) := bufPush env (buffer c) (policy c) (Element env key) in
  let c1 := mkCache (data c) p1 b1 (notify c) (used c) (size c) in
  (Map_Get (data c1) key, c1,
   [BufferPush (Element env key); DataGet key]).

(** One round of [for _, victim := range victims]. *)
Definition evict (c : Cache) (victim : string) : Cache * list Call :=
  let data1 := Map_Del (data c) victim in
  let used1 := GoInt.wrapU64 (used c + GoInt.allOnes64) in
  (mkCache data1 (policy c) (buffer c) (notify c) used1 (size c),
   DataDel victim ::
     match notify c with
     | Some _ => [Notify victim]
     | None => []
     end).

Fixpoint evictAll (c : Cache) (victims : list string) : Cache * list Call :=
  match victims with
  | [] => (c, [])
  | victim :: rest =>
      let '(c1, calls1) := evict c victim in
      let '(c2, calls2) := evictAll c1 rest in
      (c2, calls1 ++ calls2)
  end.

(** [func (c *Cache) Set(key string, val interface{}, cost uint64) ([]string, bool)]
    ([Set] is a reserved word here, hence the underscore.) *)
Definition Set_ (c : Cache) (key : string) (val : V) (cost : Z)
  : (list string * bool) * Cache * list Call :=
  let '(p1, (victims, added)) := policyAdd env (policy c) key cost in
  let c1 := mkCache (data c) p1 (buffer c) (notify c) (used c) (size c) in
  if negb added then (([], false), c1, [PolicyAdd key cost])
  else
    let '(c2, calls2) := evictAll c1 victims in
    let data3 := Map_Set (data c2) key val in
    let used3 := GoInt.wrapU64 (used c2 + 1) in
    if used3 =? size c2 then
      ((victims, true),
       mkCache data3 (policyRes env (policy c2)) (buffer c2) (notify c2)
               (Z.quot (size c2) 2) (size c2),
       PolicyAdd key cost :: calls2 ++ [DataSet key val; PolicyRes])
    else
      ((victims, true),
       mkCache data3 (policy c2) (buffer c2) (notify c2) used3 (size c2),
       PolicyAdd key cost :: calls2 ++ [DataSet key val]).

(** [func (c *Cache) Del(key string)] *)
Definition Del (c : Cache) (key : string) : Cache * list Call :=
  (mkCache (Map_Del (data c) key) (policyDel env (policy c) key)
           (buffer c) (notify c) (used c) (size c),
   [PolicyDel key; DataDel key]).

(** Projections of a call log. *)
Definition notifies (l : list Call) : list string :=
  omap (fun c => match c with Notify v => Some v | _ => None end) l.
Definition pushes (l : list Call) : list Elem :=
  omap (fun c => match c with BufferPush e => Some e | _ => None end) l.
Definition resets (l : list Call) : nat :=
  length (omap (fun c => match c with PolicyRes => Some tt | _ => None end) l).
Definition dataDels (l : list Call) : list string :=
  omap (fun c => match c with DataDel v => Some v | _ => None end) l.

(** A run of [Set_] calls, one after the other, keeping each call's log. *)
Fixpoint SetMany (c : Cache) (reqs : list (string * V * Z))
  : Cache * list (list Call) :=
  match reqs with
  | [] => (c, [])
  | (key, val, cost) :: rest =>
      let '(_, c1, calls) := Set_ c key val cost in
      let '(c2, logs) := SetMany c1 rest in
      (c2, calls :: logs)
  end.

End Cache.

End Cache.

(** ** Flag strings (z/flags.go) *)

Module Flags.

Local Open Scope string_scope.

(** Go strings are byte sequences, here [string] with one [ascii] per byte.
    The functions of package [strings] below are written for the arguments
    [parseFlag] passes (one-byte separators) and for ASCII text: white space
    is tab, line feed, vertical tab, form feed, carriage return and space,
    and only the letters A to Z have a lower case. *)

Definition isSpace (c : ascii) : bool :=
  let n := N_of_ascii c in
  (((9 <=? n) && (n <=? 13)) || (n =? 32))%N.

Fixpoint trimLeft (s : string) : string :=
  match s with
  | EmptyString => EmptyString
  | String c rest => if isSpace c then trimLeft rest else s
  end.

Fixpoint trimRight (s : string) : string :=
  match s with
  | EmptyString => EmptyString
  | String c rest =>
      match trimRight rest with
      | EmptyString => if isSpace c then EmptyString else String c EmptyString
      | rest' => String c rest'
      end
  end.

(** [strings.TrimSpace] *)
Definition TrimSpace (s : string) : string := trimRight (trimLeft s).

Definition lowerByte (c : ascii) : ascii :=
  let n := N_of_ascii c in
  if ((65 <=? n) && (n <=? 90))%N then ascii_of_N (n + 32) else c.

Fixpoint mapBytes (f : ascii -> ascii) (s : string) : string :=
  match s with
  | EmptyString => EmptyString
  | String c rest => String (f c) (mapBytes f rest)
  end.

(** [strings.ToLower] *)
Definition ToLower (s : string) : string := mapBytes lowerByte s.

(** [strings.ReplaceAll(s, old, new)] for one-byte [old] and [new]. *)
Definition ReplaceAll (s : string) (old new : ascii) : string :=
  mapBytes (fun c => if Ascii.eqb c old then new else c) s.

(** [strings.Split(s, sep)] for a one-byte [sep]: the pieces between the
    separators, one more than there are separators. *)
Fixpoint Split (s : string) (sep : ascii) : list string :=
  match s with
  | EmptyString => [EmptyString]
  | String c rest =>
      if Ascii.eqb c sep then EmptyString :: Split rest sep
      else match Split rest sep with
           | piece :: pieces => String c piece :: pieces
           | [] => [String c EmptyString]
           end
  end.

(** [strings.SplitN(s, sep, 2)] for a one-byte [sep]: the text before the
    first separator and the text after it, or [s] alone when it has none. *)
Fixpoint SplitN2 (s : string) (sep : ascii) : list string :=
  match s with
  | EmptyString => [EmptyString]
  | String c rest =>
      if Ascii.eqb c sep then [EmptyString; rest]
      else match SplitN2 rest sep with
           | [before] => [String c before]
           | before :: after => String c before :: after
           | [] => [String c EmptyString]
           end
  end.

(** The body of [for _, kv := range strings.Split(flag, ";")], on the map
    built so far; [None] is the run-time panic of [splits[1]] on a piece
    that has no ["="]. *)
Definition parseFlagStep (kvm : gmap string string) (kv : string)
  : option (gmap string string) :=
  if String.eqb (TrimSpace kv) "" then Some kvm
  else
    let splits := SplitN2 kv "=" in
    match splits !! 0%nat with
    | None => None
    | Some s0 =>
        let k := TrimSpace s0 in
        let k := ToLower k in
        let k := ReplaceAll k "_" "-" in
        match splits !! 1%nat with
        | None => None
        | Some s1 => Some (<[k := TrimSpace s1]> kvm)
        end
    end.

Fixpoint parseFlagLoop (kvm : gmap string string) (kvs : list string)
  : option (gmap string string) :=
  match kvs with
  | [] => Some kvm
  | kv :: rest =>
      match parseFlagStep kvm kv with
      | None => None
      | Some kvm1 => parseFlagLoop kvm1 rest
      end
  end.

(** [func parseFlag(flag string) map[string]string] *)
Definition parseFlag (flag : string) : option (gmap string string) :=
  parseFlagLoop ∅ (Split flag ";").

(** Vocabulary for stating what [parseFlag] computes.  A segment is blank when nothing is left of it
    after trimming; the key of a segment is the text before its first ["="],
    trimmed, lower-cased, with dashes for underscores; its value is the text
    after that ["="], trimmed. *)
Definition blank (kv : string) : bool := String.eqb (TrimSpace kv) "".

Fixpoint hasByte (c : ascii) (s : string) : bool :=
  match s with
  | EmptyString => false
  | String c' rest => Ascii.eqb c' c || hasByte c rest
  end.

Fixpoint beforeByte (c : ascii) (s : string) : string :=
  match s with
  | EmptyString => EmptyString
  | String c' rest => if Ascii.eqb c' c then EmptyString
                      else String c' (beforeByte c rest)
  end.

Fixpoint afterByte (c : ascii) (s : string) : string :=
  match s with
  | EmptyString => EmptyString
  | String c' rest => if Ascii.eqb c' c then rest else afterByte c rest
  end.

Definition segmentKey (kv : string) : string :=
  ReplaceAll (ToLower (TrimSpace (beforeByte "=" kv))) "_" "-".

Definition segmentValue (kv : string) : string :=
  TrimSpace (afterByte "=" kv).

(** The entries a list of segments stands for, in the order of the
    segments: one for every segment that is not blank. *)
Definition entriesOf (kvs : list string) : list (string * string) :=
  map (fun kv => (segmentKey kv, segmentValue kv))
      (filter (fun kv => blank kv = false) kvs).

(** The entries a flag string stands for. *)
Definition entries (flag : string) : list (string * string) :=
  entriesOf (Split flag ";").

(** Writing entries into a map one after the other. *)
Definition writeAll (kvm : gmap string string) (es : list (string * string))
  : gmap string string :=
  foldl (fun m e => <[e.1 := e.2]> m) kvm es.

(** The segments that are neither blank nor of the form [k=v]. *)
Definition malformed (flag : string) : list string :=
  filter (fun kv => blank kv = false /\ hasByte "=" kv = false) (Split flag ";").

End Flags.

(** ** Allocation accounting without jemalloc (z/calloc_nojemalloc.go) *)

Module Calloc.

(** A [[]byte]: nil, or [len] bytes backed by an array of [cap] bytes. *)
Inductive slice : Type :=
| nilSlice
| mkSlice (elems : list Z) (capacity : Z).

Definition len (b : slice) : Z :=
  match b with
  | nilSlice => 0
  | mkSlice elems _ => Z.of_nat (length elems)
  end.

Definition cap (b : slice) : Z :=
  match b with
  | nilSlice => 0
  | mkSlice _ capacity => capacity
  end.

(** [make([]byte, n)]: panics on a negative length, otherwise [n] zero bytes
    (memory is taken to be available). *)
Definition make (n : Z) : option slice :=
  if n <? 0 then None else Some (mkSlice (repeat 0 (Z.to_nat n)) n).

(** [func Calloc(n int) []byte]: the new value of the package counter
    [numBytes], and the slice returned ([None]: [make] panicked, after the
    counter was updated). *)
Definition Calloc (numBytes : Z) (n : Z) : Z * option slice :=
  (GoInt.wrapI64 (numBytes + n), make n).

(** [func CallocNoRef(n int) []byte] *)
Definition CallocNoRef (numBytes : Z) (n : Z) : Z * slice :=
  (numBytes, nilSlice).

(** [func Free(b []byte)] *)
Definition Free (numBytes : Z) (b : slice) : Z :=
  GoInt.wrapI64 (numBytes + GoInt.wrapI64 (- cap b)).

End Calloc.

(** ** Example collaborators

    Small instances of the interfaces the sources leave open, used to run
    the operations above on concrete inputs. *)

Module Demo.

Local Open Scope string_scope.

(** Values: an integer payload, or nil. *)
Definition val : Type := option Z.

(** Modelled from the spec: the store's [del(key, conflict)], which is
    declared outside these sources.  "Only deletes when [conflict == 0] or
    the stored conflict matches.  Returns prior stored conflict and value."
    A store is a map from key to (conflict, value). *)
Definition storeDel (s : gmap Z (Z * val)) (key conflict : Z)
  : gmap Z (Z * val) * (Z * val) :=
  match s !! key with
  | Some (stored, v) =>
      if ((conflict =? 0) || (conflict =? stored))%Z
      then (delete key s, (stored, v))
      else (s, (0, None))
  | None => (s, (0, None))
  end.

(** Modelled from the spec: the policy map, "mapping from key to cost";
    [Cost] reads it and changes nothing.  The answer -1 for an absent key is
    this example's choice. *)
Definition policyCost (p : gmap Z Z) (key : Z) : gmap Z Z * Z :=
  (p, default (-1) (p !! key)).

(** An expiration map holding key 1 (conflict 7), added with an expiration
    one hour after the epoch. *)
Definition wheel1 : Ttl.expirationMap :=
  Ttl.Add Ttl.newExpirationMap 1 7 (Ttl.utc 3600).

(** An expiration map holding key 2 (conflict 9), added with an expiration
    58 seconds after the epoch. *)
Definition wheel2 : Ttl.expirationMap :=
  Ttl.Add Ttl.newExpirationMap 2 9 (Ttl.utc 58).

Definition store1 : gmap Z (Z * val) := {[ 1 := (7, Some 100) ]}.
Definition policy1 : gmap Z Z := {[ 1 := 3 ]}.

(** [CleanUp] on the example store and policy, visiting a bucket in the
    order of [map_to_list]. *)
Definition cleanUp1 (m : Ttl.expirationMap) (now : Ttl.Time)
    (onEvict : option Ttl.callback) :=
  Ttl.CleanUp storeDel policyCost map_to_list m now store1 policy1 onEvict.

(** An example policy: first-in-first-out with room for [capacity] keys,
    next to a row of frequency counters. *)
Record fifo : Type := mkFifo
  { counters : list Z;
    residents : list string }.

(** Modelled from the spec: the reset of the frequency sketch, whose code is
    not part of these sources: it "halves every counter (divide by 2, i.e.
    right-shift by 1)". *)
Definition fifoRes (p : fifo) : fifo :=
  mkFifo (map (fun counter => Z.shiftr counter 1) (counters p)) (residents p).

Definition fifoAdd (capacity : nat) (p : fifo) (key : string) (cost : Z)
  : fifo * (list string * bool) :=
  if bool_decide (key ∈ residents p) then (p, ([], true))
  else if (length (residents p) <? capacity)%nat
       then (mkFifo (counters p) (residents p ++ [key])%list, ([], true))
       else match residents p with
            | oldest :: others =>
                (mkFifo (counters p) (others ++ [key])%list, ([oldest], true))
            | [] => (p, ([], false))
            end.

Definition fifoDel (p : fifo) (key : string) : fifo :=
  mkFifo (counters p) (filter (fun r => r ≠ key) (residents p)).

(** The collaborators of a cache whose policy is the one above, whose
    buffer is the list of the elements pushed so far, and whose elements are
    the keys themselves. *)
Definition env (capacity : nat)
  : Cache.Collaborators (V := val) (P := fifo) (B := list string) (Elem := string) :=
  Cache.mkCollaborators
    (fun numCounters maxCost => mkFifo [15; 8; 3; 0] [])
    (fun p _ => p)
    (fifoAdd capacity)
    fifoDel
    fifoRes
    (fun _ => [])
    (fun b p e => ((b ++ [e])%list, p))
    (fun key => key).

(** A configuration with every field zero. *)
Definition zeroConfig : Cache.Config := Cache.mkConfig 0 0 0 None false.

(** A cache for four counters, with a callback, whose policy holds
    [capacity] keys. *)
Definition cache4 (capacity : nat) : Cache.Cache (V := val) :=
  match Cache.NewCache (env capacity)
          (Some (Cache.mkConfig 4 4 1 (Some Cache.userFunc) false)) with
  | Cache.Returned (c, _) => c
  | Cache.Panicked => Cache.mkCache ∅ (mkFifo [] []) [] None 0 0
  end.

(** Six admissions of distinct keys. *)
Definition sixSets : list (string * val * Z) :=
  [("a", Some 1, 1); ("b", Some 2, 1); ("c", Some 3, 1);
   ("d", Some 4, 1); ("e", Some 5, 1); ("f", Some 6, 1)].

End Demo.

(** ** Iterating over a store (store.go, [Run]) *)

Module StoreRun.

Section Run.
(** The callback [f] may have effects of its own; [St] is the state it
    works on, and its boolean result says whether to go on.  [rangeOrder] is
    the order in which the map is visited, unspecified in Go. *)
Context {K : Type} `{Countable K} {V St : Type}.
Variable rangeOrder : gmap K V -> list (K * V).
Variable f : St -> K -> V -> St * bool.

(** [for k, v := range m.data { if !f(k, v) { return } }]: the state after
    the loop and the entries [f] was called on, in order. *)
Fixpoint runLoop (entries : list (K * V)) (st : St) : St * list (K * V) :=
  match entries with
  | [] => (st, [])
  | (k, v) :: rest =>
      let '(st1, goOn) := f st k v in
      if goOn then
        let '(st2, visited) := runLoop rest st1 in
        (st2, (k, v) :: visited)
      else (st1, [(k, v)])
  end.

(** [func (m *lockedMap) Run(f func(interface{}, interface{}) bool)] *)
Definition lockedMap_Run (m : gmap K V) (st : St) : St * list (K * V) :=
  runLoop (rangeOrder m) st.

(** [func (m *syncMap) Run(f ...)]: [m.Range(f)], which calls [f] for each
    entry in turn and stops when [f] returns false. *)
Definition syncMap_Run (m : gmap K V) (st : St) : St * list (K * V) :=
  runLoop (rangeOrder m) st.

End Run.

End StoreRun.

(** ** Super flags (z/flags.go, after [parseFlag]) *)

Module SuperFlag.

Local Open Scope string_scope.

(** How a call ends: it returns, it panics, or it ends the process
    ([log.Fatalf]). *)
Inductive result (A : Type) : Type :=
| Ok (a : A)
| Panic
| Exit.
Arguments Ok {A} a.
Arguments Panic {A}.
Arguments Exit {A}.

(** A [*SuperFlag]: nil, or a pointer to a struct whose field [m] is the
    given map. *)
Abbreviation SuperFlag := (option (gmap string string)).

(** [func NewSuperFlag(flag string) *SuperFlag] *)
Definition NewSuperFlag (flag : string) : result SuperFlag :=
  match Flags.parseFlag flag with
  | Some m => Ok (Some m)
  | None => Panic
  end.

(** [func (sf *SuperFlag) GetString(opt string) string]: [sf.m[opt]] is the
    empty string when the key is absent. *)
Definition GetString (sf : SuperFlag) (opt : string) : string :=
  match sf with
  | None => ""
  | Some m => default "" (m !! opt)
  end.

(** [func (sf *SuperFlag) Has(opt string) bool] *)
Definition Has (sf : SuperFlag) (opt : string) : bool :=
  negb (String.eqb (GetString sf opt) "").

(** [strconv.ParseBool]: it accepts 1, t, T, TRUE, true, True, 0, f, F,
    FALSE, false, False, and fails on anything else. *)
Definition ParseBool (str : string) : option bool :=
  if String.eqb str "1" || String.eqb str "t" || String.eqb str "T"
     || String.eqb str "TRUE" || String.eqb str "true" || String.eqb str "True"
  then Some true
  else if String.eqb str "0" || String.eqb str "f" || String.eqb str "F"
          || String.eqb str "FALSE" || String.eqb str "false"
          || String.eqb str "False"
  then Some false
  else None.

(** [func (sf *SuperFlag) GetBool(opt string) bool] *)
Definition GetBool (sf : SuperFlag) (opt : string) : result bool :=
  let val := GetString sf opt in
  if String.eqb val "" then Ok false
  else match ParseBool val with
       | Some b => Ok b
       | None => Exit
       end.

Section Merge.
(** The order in which [range src] visits the defaults. *)
Variable rangeOrder : gmap string string -> list (string * string).

(** [for k := range src { if _, ok := sf.m[k]; ok { numKeys-- } }] *)
Definition countDown (m : gmap string string) (numKeys : Z)
    (src : list (string * string)) : Z :=
  foldl (fun n kv => match m !! kv.1 with
                     | Some _ => n - 1
                     | None => n
                     end) numKeys src.

(** [for k, v := range src { if _, ok := sf.m[k]; !ok { sf.m[k] = v } }] *)
Definition fillIn (m : gmap string string) (src : list (string * string))
  : gmap string string :=
  foldl (fun m1 kv => match m1 !! kv.1 with
                      | Some _ => m1
                      | None => <[kv.1 := kv.2]> m1
                      end) m src.

(** [func (sf *SuperFlag) MergeAndCheckDefault(flag string) *SuperFlag] *)
Definition MergeAndCheckDefault (sf : SuperFlag) (flag : string)
  : result SuperFlag :=
  match sf with
  | None =>
      match Flags.parseFlag flag with
      | Some m => Ok (Some m)
      | None => Panic
      end
  | Some m =>
      let numKeys := Z.of_nat (size m) in
      match Flags.parseFlag flag with
      | None => Panic
      | Some src =>
          let numKeys := countDown m numKeys (rangeOrder src) in
          if negb (numKeys =? 0)%Z then Panic
          else Ok (Some (fillIn m (rangeOrder src)))
      end
  end.

End Merge.

(** The bytes a normalized key is free of: upper-case letters and
    underscores. *)
Definition isUpper (c : ascii) : bool :=
  let n := N_of_ascii c in ((65 <=? n) && (n <=? 90))%N.

Fixpoint allBytes (p : ascii -> bool) (s : string) : bool :=
  match s with
  | EmptyString => true
  | String c rest => p c && allBytes p rest
  end.

Definition normalized (k : string) : bool :=
  allBytes (fun c => negb (isUpper c) && negb (Ascii.eqb c "_")) k.

(** The first and the last byte of a string, if it has any. *)
Definition firstByte (s : string) : option ascii :=
  match s with
  | EmptyString => None
  | String c _ => Some c
  end.

Fixpoint lastByte (s : string) : option ascii :=
  match s with
  | EmptyString => None
  | String c EmptyString => Some c
  | String _ rest => lastByte rest
  end.

(** No white space at either end. *)
Definition trimmed (s : string) : bool :=
  match firstByte s, lastByte s with
  | Some c1, Some c2 => negb (Flags.isSpace c1) && negb (Flags.isSpace c2)
  | _, _ => true
  end.

End SuperFlag.

(** ** The benchmark's hasher (bench/cache.go) *)

Module Bench.

Definition byteOf (c : ascii) : Z := Z.of_N (N_of_ascii c).

(** One round of the loop: [hash ^= uint64(key[i]); hash *= 1099511628211]. *)
Definition sumStep (hash : Z) (c : ascii) : Z :=
  GoInt.wrapU64 (Z.lxor hash (byteOf c) * 1099511628211).

Fixpoint sumLoop (hash : Z) (key : string) : Z :=
  match key with
  | EmptyString => hash
  | String c rest => sumLoop (sumStep hash c) rest
  end.

(** [func (h bigCacheHasher) Sum64(key string) uint64] *)
Definition Sum64 (key : string) : Z :=
  sumLoop 14695981039346656037 key.

(** The inverse of the multiplier 1099511628211 modulo 2^64. *)
Definition fnvPrimeInverse : Z := 14886173955864302971.

End Bench.

(** ** Runs of allocations *)

Module CallocRun.

(** [Calloc] for each size in turn, collecting the slices; [None] when one
    of the calls panicked. *)
Fixpoint CallocMany (numBytes : Z) (sizes : list Z)
  : Z * option (list Calloc.slice) :=
  match sizes with
  | [] => (numBytes, Some [])
  | n :: rest =>
      match Calloc.Calloc numBytes n with
      | (numBytes1, None) => (numBytes1, None)
      | (numBytes1, Some b) =>
          match CallocMany numBytes1 rest with
          | (numBytes2, Some bs) => (numBytes2, Some (b :: bs))
          | (numBytes2, None) => (numBytes2, None)
          end
      end
  end.

(** [Free] for each slice in turn. *)
Definition FreeMany (numBytes : Z) (bs : list Calloc.slice) : Z :=
  foldl Calloc.Free numBytes bs.

(** The sum of the capacities of a list of slices, and of a list of sizes. *)
Definition totalCap (bs : list Calloc.slice) : Z :=
  foldr (fun b acc => Calloc.cap b + acc) 0 bs.
Definition total (sizes : list Z) : Z := foldr Z.add 0 sizes.

End CallocRun.

(** * Properties *)

(** ** Machine integers *)

Lemma wrapI64_id z : GoInt.inI64 z -> GoInt.wrapI64 z = z.
Proof.
  unfold GoInt.inI64, GoInt.wrapI64. intros Hz.
  rewrite Z.mod_small; lia.
Qed.

Lemma wrapI64_cancel a b :
  GoInt.inI64 a -> GoInt.wrapI64 (GoInt.wrapI64 (a + b) - b) = a.
Proof.
  intros Ha. unfold GoInt.wrapI64.
  replace ((a + b + 2 ^ 63) mod 2 ^ 64 - 2 ^ 63 - b + 2 ^ 63)
    with ((a + b + 2 ^ 63) mod 2 ^ 64 + - b) by lia.
  rewrite Zplus_mod_idemp_l.
  replace (a + b + 2 ^ 63 + - b) with (a + 2 ^ 63) by lia.
  unfold GoInt.inI64 in Ha. rewrite Z.mod_small; lia.
Qed.

(** ** The expiration wheel *)

Section TtlFacts.
Import Ttl.

Lemma Second_range t : 0 <= Second t < 60.
Proof. unfold Second. apply Z.mod_pos_bound. lia. Qed.

Lemma timeToBucket_div t : timeToBucket t = Second t / 5.
Proof.
  unfold timeToBucket, bucketSizeSecs.
  pose proof (Second_range t). apply Z.quot_div_nonneg; lia.
Qed.

Lemma timeToBucket_range t : 0 <= timeToBucket t <= 11.
Proof.
  rewrite timeToBucket_div. pose proof (Second_range t) as Hs. split.
  - apply Z.div_pos; lia.
  - assert (Second t / 5 < 12); [|lia].
    apply Z.div_lt_upper_bound; lia.
Qed.

Lemma Second_minute_later t : Second (addSeconds t 60) = Second t.
Proof.
  unfold Second, addSeconds; simpl.
  replace (unixSec t + 60 + zoneOffset t)
    with (unixSec t + zoneOffset t + 1 * 60) by lia.
  apply Z_mod_plus_full.
Qed.

Lemma timeToBucket_minute_later t :
  timeToBucket (addSeconds t 60) = timeToBucket t.
Proof. unfold timeToBucket. by rewrite Second_minute_later. Qed.

Lemma cleanUpBucket_range now : -1 <= cleanUpBucket now <= 10.
Proof. unfold cleanUpBucket. pose proof (timeToBucket_range now). lia. Qed.

Section Loop.
Context {V S P : Type}.
Variable storeDel : S -> Z -> Z -> S * (Z * V).
Variable policyCost : P -> Z -> P * Z.

Lemma evictOne_calls onEvict s p k c :
  exists v w,
    (evictOne storeDel policyCost onEvict s p k c).2 =
      StoreDel k 0 :: PolicyCost k ::
        match onEvict with Some _ => [OnEvict k c v w] | None => [] end.
Proof.
  unfold evictOne.
  destruct (storeDel s k 0) as [s1 [c0 v]].
  destruct (policyCost p k) as [p1 w].
  by exists v, w.
Qed.

Lemma evictAll_cons onEvict k c keys s p :
  (evictAll storeDel policyCost onEvict ((k, c) :: keys) s p).2 =
    (evictOne storeDel policyCost onEvict s p k c).2 ++
    (evictAll storeDel policyCost onEvict keys
       (evictOne storeDel policyCost onEvict s p k c).1.1
       (evictOne storeDel policyCost onEvict s p k c).1.2).2.
Proof.
  simpl.
  destruct (evictOne storeDel policyCost onEvict s p k c) as [[s1 p1] calls1].
  simpl.
  by destruct (evictAll storeDel policyCost onEvict keys s1 p1) as [[s2 p2] calls2].
Qed.

Lemma evictAll_storeDels onEvict keys s p :
  storeDels (evictAll storeDel policyCost onEvict keys s p).2 =
    (fun kc => (kc.1, 0)) <$> keys.
Proof.
  revert s p. induction keys as [|[k c] keys IH]; intros s p; [done|].
  rewrite evictAll_cons. unfold storeDels in *. rewrite omap_app, IH.
  destruct (evictOne_calls onEvict s p k c) as (v & w & ->).
  by destruct onEvict.
Qed.

Lemma evictAll_policyCosts onEvict keys s p :
  policyCosts (evictAll storeDel policyCost onEvict keys s p).2 = keys.*1.
Proof.
  revert s p. induction keys as [|[k c] keys IH]; intros s p; [done|].
  rewrite evictAll_cons. unfold policyCosts in *. rewrite omap_app, IH.
  destruct (evictOne_calls onEvict s p k c) as (v & w & ->).
  by destruct onEvict.
Qed.

Lemma evictAll_policyDels onEvict keys s p :
  policyDels (evictAll storeDel policyCost onEvict keys s p).2 = [].
Proof.
  revert s p. induction keys as [|[k c] keys IH]; intros s p; [done|].
  rewrite evictAll_cons. unfold policyDels in *. rewrite omap_app, IH.
  destruct (evictOne_calls onEvict s p k c) as (v & w & ->).
  by destruct onEvict.
Qed.

Lemma evictAll_onEvicts cb keys s p :
  (fun e => (e.1.1.1, e.1.1.2)) <$>
    onEvicts (evictAll storeDel policyCost (Some cb) keys s p).2 = keys.
Proof.
  revert s p. induction keys as [|[k c] keys IH]; intros s p; [done|].
  rewrite evictAll_cons. unfold onEvicts in *. rewrite omap_app, fmap_app, IH.
  by destruct (evictOne_calls (Some cb) s p k c) as (v & w & ->).
Qed.

Lemma evictAll_onEvicts_nil keys s p :
  onEvicts (evictAll storeDel policyCost None keys s p).2 = [].
Proof.
  revert s p. induction keys as [|[k c] keys IH]; intros s p; [done|].
  rewrite evictAll_cons. unfold onEvicts in *. rewrite omap_app, IH.
  by destruct (evictOne_calls None s p k c) as (v & w & ->).
Qed.

Lemma CleanUp_unfold rangeOrder m now s p onEvict :
  c_buckets (CleanUp storeDel policyCost rangeOrder m now s p onEvict)
    = delete (cleanUpBucket now) m /\
  c_calls (CleanUp storeDel policyCost rangeOrder m now s p onEvict)
    = (evictAll storeDel policyCost onEvict
         (rangeOrder (bucketAt m (cleanUpBucket now))) s p).2.
Proof.
  unfold CleanUp.
  by destruct (evictAll storeDel policyCost onEvict
                 (rangeOrder (bucketAt m (cleanUpBucket now))) s p)
    as [[s' p'] calls].
Qed.

End Loop.
End TtlFacts.

(** C1.  The claim takes the bucket of an instant to be its Unix seconds
    divided by 5.  [timeToBucket] divides the second-of-the-minute instead:
    the instant 60 seconds after the epoch (Unix seconds 60, window 12) gets
    bucket 0, the bucket of the epoch itself (window 0); bucket numbers stay
    within 0..11 and repeat every minute. *)
Theorem timeToBucket_second_of_minute :
  Ttl.timeToBucket (Ttl.utc 60) = 0 /\
  Ttl.timeToBucket (Ttl.utc 0) = 0 /\
  Ttl.Unix (Ttl.utc 60) / 5 = 12 /\
  Ttl.Unix (Ttl.utc 0) / 5 = 0 /\
  (forall t, Ttl.timeToBucket t = ((Ttl.unixSec t + Ttl.zoneOffset t) mod 60) / 5) /\
  (forall t, 0 <= Ttl.timeToBucket t <= 11) /\
  (forall t, Ttl.timeToBucket (Ttl.addSeconds t 60) = Ttl.timeToBucket t).
Proof.
  repeat split; try reflexivity.
  - apply timeToBucket_div.
  - apply timeToBucket_range.
  - apply timeToBucket_range.
  - apply timeToBucket_minute_later.
Qed.

(** C2.  The claim has every entry of the bucket [CleanUp] detaches expired
    before [now], and every entry removed within 10 seconds of its
    expiration.  On the code: key 1, added with an expiration 3600 seconds
    after the epoch, is detached and reported to [onEvict] by the [CleanUp]
    that runs 66 seconds after the epoch; and no [CleanUp] at any time
    touches bucket 11, where key 2 (expiration 58 seconds after the epoch)
    was put, so that entry is never removed. *)
Theorem CleanUp_detaches_by_second_of_minute :
  Ttl.c_calls (Demo.cleanUp1 Demo.wheel1 (Ttl.utc 66) (Some Ttl.userFunc))
    = [Ttl.StoreDel 1 0; Ttl.PolicyCost 1; Ttl.OnEvict 1 7 (Some 100) 3] /\
  Ttl.c_buckets (Demo.cleanUp1 Demo.wheel1 (Ttl.utc 66) (Some Ttl.userFunc)) = ∅ /\
  Ttl.Unix (Ttl.utc 66) < Ttl.Unix (Ttl.utc 3600) /\
  Ttl.timeToBucket (Ttl.utc 58) = 11 /\
  Demo.wheel2 !! 11 = Some {[ 2 := 9 ]} /\
  (forall (V S P : Type) (storeDel : S -> Z -> Z -> S * (Z * V))
          (policyCost : P -> Z -> P * Z) rangeOrder
          (m : Ttl.expirationMap) now s p onEvict,
      Ttl.c_buckets (Ttl.CleanUp storeDel policyCost rangeOrder m now s p onEvict) !! 11
        = m !! 11).
Proof.
  split; [by vm_compute|]. split; [by vm_compute|].
  split; [by vm_compute|]. split; [by vm_compute|]. split; [by vm_compute|].
  intros V S P storeDel policyCost rangeOrder m now s p onEvict.
  destruct (CleanUp_unfold storeDel policyCost rangeOrder m now s p onEvict)
    as [-> _].
  pose proof (cleanUpBucket_range now).
  apply lookup_delete_ne. lia.
Qed.




(** ** The store *)


(** ** The cache coordinator *)

Section CacheFacts.
Import Cache.
Context {V P B Elem : Type}.
Variable env : Collaborators (V := V) (P := P) (B := B) (Elem := Elem).

Local Abbreviation evict := (Cache.evict (V := V) (P := P) (B := B) (Elem := Elem)).
Local Abbreviation evictAll := (Cache.evictAll (V := V) (P := P) (B := B) (Elem := Elem)).

Lemma evictAll_cons_calls (c : Cache) victim rest :
  (evictAll c (victim :: rest)).2 =
    (evict c victim).2 ++ (evictAll (evict c victim).1 rest).2.
Proof.
  cbn [Cache.evictAll]. destruct (evict c victim) as [c1 calls1].
  cbn [fst snd]. by destruct (evictAll c1 rest) as [c2 calls2].
Qed.

Lemma evictAll_cons_cache (c : Cache) victim rest :
  (evictAll c (victim :: rest)).1 = (evictAll (evict c victim).1 rest).1.
Proof.
  cbn [Cache.evictAll]. destruct (evict c victim) as [c1 calls1].
  cbn [fst snd]. by destruct (evictAll c1 rest) as [c2 calls2].
Qed.

Lemma evictAll_notifies (c : Cache) victims :
  notifies (evictAll c victims).2 =
    match notify c with Some _ => victims | None => [] end.
Proof.
  revert c. induction victims as [|victim rest IH]; intros c.
  - by destruct (notify c).
  - rewrite evictAll_cons_calls. unfold notifies in *.
    rewrite omap_app, IH. unfold evict; simpl. by destruct (notify c).
Qed.

Lemma evictAll_dataDels (c : Cache) victims :
  dataDels (evictAll c victims).2 = victims.
Proof.
  revert c. induction victims as [|victim rest IH]; intros c; [done|].
  rewrite evictAll_cons_calls. unfold dataDels in *.
  rewrite omap_app, IH. unfold evict; simpl. by destruct (notify c).
Qed.

Lemma evictAll_resets (c : Cache) victims :
  resets (evictAll c victims).2 = 0%nat.
Proof.
  revert c. induction victims as [|victim rest IH]; intros c; [done|].
  rewrite evictAll_cons_calls. unfold resets in *.
  rewrite omap_app, length_app, IH. unfold evict; simpl.
  by destruct (notify c).
Qed.

Lemma evictAll_frame (c : Cache) victims :
  policy (evictAll c victims).1 = policy c /\
  buffer (evictAll c victims).1 = buffer c /\
  notify (evictAll c victims).1 = notify c /\
  size (evictAll c victims).1 = size c.
Proof.
  revert c. induction victims as [|victim rest IH]; intros c; [done|].
  rewrite evictAll_cons_cache.
  destruct (IH (evict c victim).1) as (-> & -> & -> & ->). done.
Qed.

Lemma evictAll_used (c : Cache) victims :
  GoInt.wrapU64 (used (evictAll c victims).1 + 1) =
    GoInt.wrapU64 (used c - Z.of_nat (length victims) + 1).
Proof.
  revert c. induction victims as [|victim rest IH]; intros c.
  - simpl. f_equal. lia.
  - rewrite evictAll_cons_cache, IH. unfold evict; simpl used.
    unfold GoInt.wrapU64, GoInt.allOnes64.
    replace ((used c + (2 ^ 64 - 1)) mod 2 ^ 64 - Z.of_nat (length rest) + 1)
      with ((used c + (2 ^ 64 - 1)) mod 2 ^ 64 + (- Z.of_nat (length rest) + 1))
      by lia.
    rewrite Zplus_mod_idemp_l.
    replace (used c + (2 ^ 64 - 1) + (- Z.of_nat (length rest) + 1))
      with (used c - Z.of_nat (length (victim :: rest)) + 1 + 1 * 2 ^ 64)
      by (simpl length; lia).
    apply Z_mod_plus_full.
Qed.

Lemma resets_cons_app (call : Call (V := V) (Elem := Elem)) l1 l2 :
  resets (call :: l1 ++ l2) = (resets [call] + resets l1 + resets l2)%nat.
Proof.
  unfold resets. change (call :: l1 ++ l2) with ([call] ++ l1 ++ l2).
  rewrite !omap_app, !length_app. lia.
Qed.

Lemma notifies_cons_app (call : Call (V := V) (Elem := Elem)) l1 l2 :
  notifies (call :: l1 ++ l2) = notifies [call] ++ notifies l1 ++ notifies l2.
Proof.
  unfold notifies. change (call :: l1 ++ l2) with ([call] ++ l1 ++ l2).
  by rewrite !omap_app.
Qed.

Lemma dataDels_cons_app (call : Call (V := V) (Elem := Elem)) l1 l2 :
  dataDels (call :: l1 ++ l2) = dataDels [call] ++ dataDels l1 ++ dataDels l2.
Proof.
  unfold dataDels. change (call :: l1 ++ l2) with ([call] ++ l1 ++ l2).
  by rewrite !omap_app.
Qed.

(** What [Set_] returns, spelled out by cases on the policy's answer. *)
Lemma Set_unfold (c : Cache) key val cost :
  let pa := policyAdd env (policy c) key cost in
  let c1 := mkCache (data c) pa.1 (buffer c) (notify c) (used c) (size c) in
  let c2 := (evictAll c1 pa.2.1).1 in
  let next := GoInt.wrapU64 (used c - Z.of_nat (length pa.2.1) + 1) in
  Set_ env c key val cost =
    if negb pa.2.2 then (([], false), c1, [PolicyAdd key cost])
    else if next =? size c then
      ((pa.2.1, true),
       mkCache (Map_Set (data c2) key val) (policyRes env pa.1)
               (buffer c) (notify c) (Z.quot (size c) 2) (size c),
       PolicyAdd key cost :: (evictAll c1 pa.2.1).2 ++ [DataSet key val; PolicyRes])
    else
      ((pa.2.1, true),
       mkCache (Map_Set (data c2) key val) pa.1
               (buffer c) (notify c) next (size c),
       PolicyAdd key cost :: (evictAll c1 pa.2.1).2 ++ [DataSet key val]).
Proof.
  intros pa c1 c2 next. subst pa c1 c2 next. unfold Set_.
  destruct (policyAdd env (policy c) key cost) as [p1 [victims added]].
  simpl fst; simpl snd.
  destruct added; simpl negb; cbv iota; [|done].
  pose proof (evictAll_frame
    (mkCache (data c) p1 (buffer c) (notify c) (used c) (size c)) victims)
    as (Hp & Hb & Hn & Hs).
  pose proof (evictAll_used
    (mkCache (data c) p1 (buffer c) (notify c) (used c) (size c)) victims)
    as Hu.
  destruct (evictAll (mkCache (data c) p1 (buffer c) (notify c) (used c) (size c))
              victims) as [c2 calls2].
  simpl in *. rewrite Hp, Hb, Hn, Hs, Hu. done.
Qed.

End CacheFacts.

(** C5, the claim as stated fails: [NewCache] validates nothing and has no
    error result.  The all-zero configuration yields a cache, and a nil
    configuration makes the call panic instead of returning an error. *)
Lemma NewCache_accepts_zero_config :
  Cache.NewCache (Demo.env 1) (Some Demo.zeroConfig)
    = Cache.Returned
        (Cache.mkCache ∅ (Demo.mkFifo [15; 8; 3; 0] []) [] None 0 0,
         Demo.zeroConfig) /\
  Cache.NewCache (Demo.env 1) None = Cache.Panicked.
Proof. split; reflexivity. Qed.

(** C5, amended.  Cache construction performs no validation: for every
    non-nil configuration, zero fields included, the constructor returns a
    cache and no error; the cache starts empty with [used = 0], its size is
    [NumCounters], its callback is [OnEvict], its ring capacity is
    [BufferItems], and a zero [MaxCost] is replaced by [NumCounters] when the
    latter is not zero.  A nil configuration makes the call panic. *)
Theorem NewCache_no_validation {V P B Elem : Type}
    (env : Cache.Collaborators (V := V) (P := P) (B := B) (Elem := Elem))
    (config : Cache.Config) :
  let maxCost := if (Cache.MaxCost config =? 0)
                    && negb (Cache.NumCounters config =? 0)
                 then Cache.NumCounters config else Cache.MaxCost config in
  let policy0 := Cache.newPolicy env (Cache.NumCounters config) maxCost in
  (exists c config',
      Cache.NewCache env (Some config) = Cache.Returned (c, config') /\
      Cache.data c = ∅ /\
      Cache.used c = 0 /\
      Cache.size c = Cache.NumCounters config /\
      Cache.notify c = Cache.OnEvict config /\
      Cache.buffer c
        = Cache.NewBuffer env (Cache.mkRingConfig (Cache.BufferItems config)) /\
      Cache.policy c
        = (if Cache.Log config then Cache.NewRecorder env policy0 ∅ else policy0) /\
      Cache.MaxCost config' = maxCost /\
      Cache.NumCounters config' = Cache.NumCounters config /\
      Cache.BufferItems config' = Cache.BufferItems config) /\
  Cache.NewCache env None = Cache.Panicked.
Proof.
  intros maxCost policy0. subst maxCost policy0.
  split; [|reflexivity].
  unfold Cache.NewCache.
  destruct ((Cache.MaxCost config =? 0) && negb (Cache.NumCounters config =? 0));
    eexists _, _; (split; [reflexivity|]); simpl; repeat split.
Qed.

(** C6, the claim as stated fails: after a reset the count does not start
    again from zero.  With [NumCounters = 4] and six admissions without
    evictions, [policy.Res] is called by the fourth [Set] and again by the
    sixth, two admissions later. *)
Lemma Set_resets_again_after_half :
  map Cache.resets
      (Cache.SetMany (Demo.env 10) (Demo.cache4 10) Demo.sixSets).2
    = [0; 0; 0; 1; 0; 1]%nat /\
  Cache.size (Demo.cache4 10) = 4.
Proof. split; by vm_compute. Qed.

(** C6, amended.  [Set] calls [policy.Res()] exactly when the item was
    admitted and the counter [used], decreased by one for each evicted
    victim and increased by one for the admitted item (modulo 2^64), equals
    [NumCounters]; [used] is then set to [NumCounters / 2], so later resets
    come after [NumCounters - NumCounters / 2] further net admissions.  At
    that point every counter is halved, given that [policy.Res] halves every
    counter. *)
Theorem Set_reset_trigger {V P B Elem : Type}
    (env : Cache.Collaborators (V := V) (P := P) (B := B) (Elem := Elem))
    (countersOf : P -> list Z)
    (Hres : forall p, countersOf (Cache.policyRes env p)
                      = (fun counter => Z.shiftr counter 1) <$> countersOf p)
    (c : Cache.Cache) (key : string) (val : V) (cost : Z) :
  let pa := Cache.policyAdd env (Cache.policy c) key cost in
  let added := pa.2.2 in
  let next := GoInt.wrapU64 (Cache.used c - Z.of_nat (length pa.2.1) + 1) in
  let trigger := added && (next =? Cache.size c) in
  let r := Cache.Set_ env c key val cost in
  Cache.resets r.2 = (if trigger then 1 else 0)%nat /\
  Cache.used r.1.2
    = (if trigger then Z.quot (Cache.size c) 2
       else if added then next else Cache.used c) /\
  Cache.size r.1.2 = Cache.size c /\
  countersOf (Cache.policy r.1.2)
    = (if trigger then (fun counter => Z.shiftr counter 1) <$> countersOf pa.1
       else countersOf pa.1).
Proof.
  intros pa added next trigger r. subst r.
  rewrite (Set_unfold env c key val cost).
  fold pa. fold next. subst trigger added.
  destruct (pa.2.2); simpl negb; cbv iota; simpl andb.
  - destruct (next =? Cache.size c);
      cbn [fst snd Cache.used Cache.size Cache.policy];
      rewrite resets_cons_app, evictAll_resets, ?Hres; done.
  - done.
Qed.

Lemma Set_reset_trigger_witness :
  Cache.resets
    (Cache.Set_ (Demo.env 10)
       (Cache.SetMany (Demo.env 10) (Demo.cache4 10) (take 3 Demo.sixSets)).1
       "d"%string (Some 4) 1).2 = 1%nat.
Proof.
  apply (Set_reset_trigger (Demo.env 10) Demo.counters
           (fun p => eq_refl)
           (Cache.SetMany (Demo.env 10) (Demo.cache4 10) (take 3 Demo.sixSets)).1
           "d"%string (Some 4) 1).
Defined.


(** C8.  With a callback configured, [Set] invokes it exactly once for every
    victim it evicts (the victims the policy names when it admits the item,
    each of which is also deleted from the store; none when the item is
    rejected), [CleanUp] invokes it exactly once for every entry of the
    bucket it detaches, and [Del] never invokes it. *)
Theorem OnEvict_once_per_eviction {V P B Elem : Type}
    (env : Cache.Collaborators (V := V) (P := P) (B := B) (Elem := Elem))
    (c : Cache.Cache) (key : string) (val : V) (cost : Z)
    (Hnotify : is_Some (Cache.notify c)) :
  let pa := Cache.policyAdd env (Cache.policy c) key cost in
  let evicted := if pa.2.2 then pa.2.1 else [] in
  Cache.notifies (Cache.Set_ env c key val cost).2 = evicted /\
  Cache.dataDels (Cache.Set_ env c key val cost).2 = evicted /\
  (Cache.Set_ env c key val cost).1.1 = (evicted, pa.2.2) /\
  Cache.notifies (Cache.Del env c key).2 = [] /\
  (forall (W S Q : Type) (storeDel : S -> Z -> Z -> S * (Z * W))
          (policyCost : Q -> Z -> Q * Z) (rangeOrder : gmap Z Z -> list (Z * Z))
          (m : Ttl.expirationMap) (now : Ttl.Time) (s : S) (q : Q)
          (onEvict : Ttl.callback),
      (forall b, rangeOrder b ≡ₚ map_to_list b) ->
      (fun e => (e.1.1.1, e.1.1.2)) <$>
        Ttl.onEvicts
          (Ttl.c_calls
             (Ttl.CleanUp storeDel policyCost rangeOrder m now s q (Some onEvict)))
        ≡ₚ map_to_list (Ttl.bucketAt m (Ttl.cleanUpBucket now))).
Proof.
  intros pa evicted. subst evicted.
  rewrite (Set_unfold env c key val cost). fold pa.
  destruct Hnotify as [cb Hcb].
  repeat split.
  - destruct (pa.2.2); simpl negb; cbv iota; [|done].
    destruct (_ =? _); cbn [fst snd];
      rewrite notifies_cons_app, evictAll_notifies; cbn [Cache.notify];
      rewrite Hcb; simpl; by rewrite app_nil_r.
  - destruct (pa.2.2); simpl negb; cbv iota; [|done].
    destruct (_ =? _); cbn [fst snd];
      rewrite dataDels_cons_app, evictAll_dataDels; simpl; by rewrite app_nil_r.
  - destruct (pa.2.2); simpl negb; cbv iota; [|done].
    by destruct (_ =? _).
  - intros W S Q storeDel policyCost rangeOrder m now s q onEvict Hrange.
    destruct (CleanUp_unfold storeDel policyCost rangeOrder m now s q
                (Some onEvict)) as [_ ->].
    by rewrite evictAll_onEvicts, Hrange.
Qed.

Lemma OnEvict_once_per_eviction_witness :
  Cache.notifies
    (Cache.Set_ (Demo.env 1)
       (Cache.SetMany (Demo.env 1) (Demo.cache4 1) (take 1 Demo.sixSets)).1
       "b"%string (Some 2) 1).2 = ["a"%string].
Proof.
  apply (OnEvict_once_per_eviction (Demo.env 1)
           (Cache.SetMany (Demo.env 1) (Demo.cache4 1) (take 1 Demo.sixSets)).1
           "b"%string (Some 2) 1
           (ex_intro _ Cache.userFunc eq_refl)).
Defined.

(** ** Flag strings *)

Section FlagsFacts.
Import Flags.

Lemma SplitN2_spec kv c :
  SplitN2 kv c =
    if hasByte c kv then [beforeByte c kv; afterByte c kv] else [kv].
Proof.
  induction kv as [|a rest IH]; [done|].
  simpl. destruct (Ascii.eqb a c); [done|]. simpl.
  rewrite IH. by destruct (hasByte c rest).
Qed.

Lemma parseFlagStep_spec kvm kv :
  parseFlagStep kvm kv =
    if blank kv then Some kvm
    else if hasByte "=" kv
         then Some (<[segmentKey kv := segmentValue kv]> kvm)
         else None.
Proof.
  unfold parseFlagStep, blank.
  destruct (String.eqb (TrimSpace kv) ""); [done|].
  rewrite SplitN2_spec. by destruct (hasByte "=" kv).
Qed.

Lemma parseFlagLoop_spec kvs kvm :
  (forall kv, kv ∈ kvs -> blank kv = false -> hasByte "=" kv = true) ->
  parseFlagLoop kvm kvs = Some (writeAll kvm (entriesOf kvs)).
Proof.
  revert kvm. induction kvs as [|kv rest IH]; intros kvm Hwf; [done|].
  simpl. rewrite parseFlagStep_spec. unfold entriesOf.
  destruct (blank kv) eqn:Hblank.
  - rewrite filter_cons_False by (rewrite Hblank; discriminate).
    apply IH. intros kv' Hin. apply Hwf. by right.
  - rewrite (Hwf kv) by (done || by left).
    rewrite filter_cons_True by done. simpl.
    apply IH. intros kv' Hin. apply Hwf. by right.
Qed.

Lemma parseFlagLoop_panics kvs kvm :
  (exists kv, kv ∈ kvs /\ blank kv = false /\ hasByte "=" kv = false) ->
  parseFlagLoop kvm kvs = None.
Proof.
  revert kvm. induction kvs as [|kv rest IH]; intros kvm (bad & Hin & Hb & He).
  - by apply elem_of_nil in Hin.
  - simpl. rewrite parseFlagStep_spec.
    apply elem_of_cons in Hin as [<-|Hin].
    + by rewrite Hb, He.
    + destruct (blank kv); [by apply IH; exists bad|].
      destruct (hasByte "=" kv); [by apply IH; exists bad|done].
Qed.

Lemma writeAll_absent es kvm k :
  k ∉ es.*1 -> writeAll kvm es !! k = kvm !! k.
Proof.
  revert kvm. induction es as [|[k' v'] es IH]; intros kvm Hk; [done|].
  simpl in *. apply not_elem_of_cons in Hk as [Hne Hk].
  unfold writeAll in *. simpl. rewrite IH by done.
  by apply lookup_insert_ne.
Qed.

Lemma writeAll_last before k v after kvm :
  k ∉ after.*1 -> writeAll kvm (before ++ (k, v) :: after) !! k = Some v.
Proof.
  intros Hk. unfold writeAll. rewrite foldl_app. simpl.
  fold (writeAll (<[k:=v]> (foldl (fun m e => <[e.1:=e.2]> m) kvm before)) after).
  rewrite writeAll_absent by done. apply lookup_insert_eq.
Qed.

Lemma writeAll_list_to_map es :
  writeAll ∅ es = list_to_map (reverse es).
Proof.
  induction es as [|[k v] es IH] using rev_ind; [done|].
  unfold writeAll in *. rewrite foldl_app, reverse_snoc. simpl.
  by rewrite IH.
Qed.

Lemma malformed_nil flag :
  malformed flag = [] ->
  forall kv, kv ∈ Split flag ";" -> blank kv = false -> hasByte "=" kv = true.
Proof.
  intros Hnil kv Hin Hb. unfold malformed in Hnil.
  destruct (hasByte "=" kv) eqn:He; [done|].
  by destruct (filter_nil_not_elem_of _ _ kv Hnil).
Qed.

End FlagsFacts.



(** ** Allocation accounting *)

Lemma make_zeroes n :
  0 <= n ->
  exists b, Calloc.make n = Some b /\ Calloc.len b = n /\ Calloc.cap b = n /\
            b = Calloc.mkSlice (repeat 0 (Z.to_nat n)) n.
Proof.
  intros Hn. unfold Calloc.make.
  destruct (n <? 0) eqn:Hneg; [lia|].
  eexists. split; [reflexivity|]. simpl. rewrite repeat_length.
  split; [lia|]. by split.
Qed.

(** C10.  For [n >= 0], [Calloc(n)] returns a slice of length (and
    capacity) [n] whose bytes are all zero and adds [n] to the counter
    [numBytes] (as [int64] addition; exactly [n] more when that does not
    overflow); [Free] subtracts the capacity of its argument from the
    counter, so freeing what [Calloc] returned restores the counter; and
    [CallocNoRef] returns nil, leaving the counter alone. *)
Theorem Calloc_Free_accounting (numBytes n : Z)
    (Hcounter : GoInt.inI64 numBytes) (Hn : 0 <= n < 2 ^ 63) :
  exists b,
    Calloc.Calloc numBytes n = (GoInt.wrapI64 (numBytes + n), Some b) /\
    Calloc.len b = n /\
    Calloc.cap b = n /\
    (forall elems capacity x,
        b = Calloc.mkSlice elems capacity -> x ∈ elems -> x = 0) /\
    (numBytes + n < 2 ^ 63 -> (Calloc.Calloc numBytes n).1 = numBytes + n) /\
    Calloc.Free (Calloc.Calloc numBytes n).1 b = numBytes /\
    (forall b' : Calloc.slice,
        0 <= Calloc.cap b' < 2 ^ 63 ->
        Calloc.Free numBytes b' = GoInt.wrapI64 (numBytes - Calloc.cap b')) /\
    Calloc.CallocNoRef numBytes n = (numBytes, Calloc.nilSlice).
Proof.
  destruct (make_zeroes n) as (b & Hmake & Hlen & Hcap & Hb); [lia|].
  exists b. unfold Calloc.Calloc. rewrite Hmake. cbn [fst].
  split; [done|]. split; [done|]. split; [done|]. split.
  { intros elems capacity x -> Hx. simplify_eq.
    apply list_elem_of_In in Hx. by apply repeat_spec in Hx. }
  split.
  { intros Hsmall. apply wrapI64_id. unfold GoInt.inI64 in *. lia. }
  split.
  { unfold Calloc.Free. rewrite Hcap.
    rewrite (wrapI64_id (- n)) by (unfold GoInt.inI64; lia).
    replace (GoInt.wrapI64 (numBytes + n) + - n)
      with (GoInt.wrapI64 (numBytes + n) - n) by lia.
    by apply wrapI64_cancel. }
  split; [|done].
  intros b' Hb'. unfold Calloc.Free.
  rewrite (wrapI64_id (- Calloc.cap b')) by (unfold GoInt.inI64; lia).
  f_equal; lia.
Qed.

Lemma Calloc_Free_accounting_witness :
  exists b,
    Calloc.Calloc 5 3 = (GoInt.wrapI64 (5 + 3), Some b) /\
    Calloc.len b = 3 /\
    Calloc.Free (Calloc.Calloc 5 3).1 b = 5.
Proof.
  destruct (Calloc_Free_accounting 5 3
              ltac:(unfold GoInt.inI64; lia) ltac:(lia))
    as (b & Hcalloc & Hlen & _ & _ & _ & Hfree & _).
  exists b. repeat split; assumption.
Defined.

(** * Further properties of the code *)

(** ** The store: deletion and iteration *)

(** X1.  After [Del], [Get] of the key returns nil and every other key reads
    as before; deleting a key that is not stored changes nothing; and
    setting an absent key and deleting it again gives back the store as it
    was.  This holds for [syncMap] and for [lockedMap]. *)
Theorem Del_removes_only_the_key {K : Type} `{Countable K} {V : Type}
    (nil : V) (m : gmap K V) (key : K) :
  Store.syncMap_Get nil (Store.syncMap_Del m key) key = nil /\
  Store.lockedMap_Get nil (Store.lockedMap_Del m key) key = nil /\
  (forall other, other ≠ key ->
     Store.syncMap_Get nil (Store.syncMap_Del m key) other
       = Store.syncMap_Get nil m other /\
     Store.lockedMap_Get nil (Store.lockedMap_Del m key) other
       = Store.lockedMap_Get nil m other) /\
  (m !! key = None ->
     Store.syncMap_Del m key = m /\ Store.lockedMap_Del m key = m /\
     forall value,
       Store.syncMap_Del (Store.syncMap_Set m key value) key = m /\
       Store.lockedMap_Del (Store.lockedMap_Set m key value) key = m).
Proof.
  unfold Store.syncMap_Get, Store.syncMap_Del, Store.syncMap_Set,
    Store.lockedMap_Get, Store.lockedMap_Del, Store.lockedMap_Set.
  rewrite !lookup_delete_eq. split; [done|]. split; [done|]. split.
  - intros other Hne. by rewrite !lookup_delete_ne.
  - intros Hnone. rewrite !delete_id by done. split; [done|]. split; [done|].
    intros value. by rewrite !delete_insert_eq, !delete_id.
Qed.

Section RunFacts.
Context {K : Type} `{Countable K} {V St : Type}.
Variable f : St -> K -> V -> St * bool.

Lemma runLoop_prefix entries st :
  (StoreRun.runLoop f entries st).2 `prefix_of` entries.
Proof.
  revert st. induction entries as [|[k v] rest IH]; intros st; [done|].
  simpl. destruct (f st k v) as [st1 [|]].
  - specialize (IH st1). destruct (StoreRun.runLoop f rest st1) as [st2 visited].
    by apply prefix_cons.
  - simpl. apply prefix_cons, prefix_nil.
Qed.

Lemma runLoop_all entries st :
  (forall st' k v, (f st' k v).2 = true) ->
  (StoreRun.runLoop f entries st).2 = entries.
Proof.
  intros Hall. revert st. induction entries as [|[k v] rest IH]; intros st; [done|].
  simpl. specialize (Hall st k v). destruct (f st k v) as [st1 goOn].
  simpl in Hall. subst goOn. specialize (IH st1).
  destruct (StoreRun.runLoop f rest st1) as [st2 visited]. simpl in *.
  by rewrite IH.
Qed.

Lemma runLoop_stop entries st :
  (length (StoreRun.runLoop f entries st).2 < length entries)%nat ->
  exists st' k v,
    last (StoreRun.runLoop f entries st).2 = Some (k, v) /\
    (f st' k v).2 = false.
Proof.
  revert st. induction entries as [|[k v] rest IH]; intros st Hlen;
    [simpl in Hlen; lia|].
  simpl in *. destruct (f st k v) as [st1 goOn] eqn:Hf. destruct goOn.
  - specialize (IH st1).
    destruct (StoreRun.runLoop f rest st1) as [st2 visited]. simpl in *.
    destruct IH as (st' & k' & v' & Hlast & Hfalse); [lia|].
    exists st', k', v'. split; [|done].
    destruct visited; [done|]. by rewrite last_cons, Hlast.
  - exists st, k, v. by rewrite Hf.
Qed.

End RunFacts.

(** X2.  [Run] calls the function on entries of the map only and on no key
    more than once, in the order of the iteration without gaps; when the
    function always answers true every entry is visited exactly once; and
    when the iteration ends before all entries were visited, the function
    answered false on the entry visited last. *)
Theorem Run_visits {K : Type} `{Countable K} {V St : Type}
    (rangeOrder : gmap K V -> list (K * V))
    (Hrange : forall m, rangeOrder m ≡ₚ map_to_list m)
    (f : St -> K -> V -> St * bool) (m : gmap K V) (st : St) :
  let visited := (StoreRun.lockedMap_Run rangeOrder f m st).2 in
  StoreRun.syncMap_Run rangeOrder f m st = StoreRun.lockedMap_Run rangeOrder f m st /\
  visited `prefix_of` rangeOrder m /\
  NoDup visited.*1 /\
  (forall k v, (k, v) ∈ visited -> m !! k = Some v) /\
  ((forall st' k v, (f st' k v).2 = true) -> visited ≡ₚ map_to_list m) /\
  ((length visited < size m)%nat ->
     exists st' k v, last visited = Some (k, v) /\ (f st' k v).2 = false).
Proof.
  intros visited. subst visited. unfold StoreRun.lockedMap_Run, StoreRun.syncMap_Run.
  pose proof (runLoop_prefix f (rangeOrder m) st) as [tail Htail].
  assert (NoDup (rangeOrder m).*1) as Hnodup.
  { rewrite Hrange. apply NoDup_fst_map_to_list. }
  split; [done|]. split; [by exists tail|]. split.
  { rewrite Htail, fmap_app in Hnodup. by apply NoDup_app in Hnodup as [? _]. }
  split.
  { intros k v Hin. apply elem_of_map_to_list. rewrite <- Hrange, Htail.
    apply elem_of_app. by left. }
  split.
  { intros Hall. by rewrite runLoop_all. }
  intros Hlen. apply runLoop_stop.
  pose proof (Permutation_length (Hrange m)) as Hsize.
  rewrite length_map_to_list in Hsize. by rewrite Hsize.
Qed.

Lemma Run_visits_witness :
  (StoreRun.lockedMap_Run map_to_list
     (fun (st : Z) (k v : Z) => (st + v, true))
     ({[ 1 := 10; 2 := 20 ]} : gmap Z Z) 0).2
    ≡ₚ map_to_list ({[ 1 := 10; 2 := 20 ]} : gmap Z Z).
Proof.
  apply (Run_visits map_to_list (fun m => reflexivity (map_to_list m))
           (fun (st : Z) (k v : Z) => (st + v, true))
           ({[ 1 := 10; 2 := 20 ]} : gmap Z Z) 0).
  reflexivity.
Defined.

(** ** The expiration wheel: adding, deleting, cleaning up *)

Section WheelFacts.
Import Ttl.

Lemma Add_bucketAt (m : expirationMap) key conflict e b :
  IsZero e = false ->
  bucketAt (Add m key conflict e) b =
    if decide (b = timeToBucket e)
    then <[key := conflict]> (bucketAt m (timeToBucket e))
    else bucketAt m b.
Proof.
  intros Hnz. unfold Add. rewrite Hnz. unfold bucketAt.
  destruct (decide (b = timeToBucket e)) as [->|Hne].
  - rewrite lookup_insert_eq. simpl.
    destruct (m !! timeToBucket e) eqn:Hb; [by rewrite Hb|].
    by rewrite lookup_insert_eq.
  - rewrite lookup_insert_ne by done.
    destruct (m !! timeToBucket e); [done|]. by rewrite lookup_insert_ne.
Qed.

Lemma Delete_bucketAt (m : expirationMap) key e b :
  bucketAt (Delete m key e) b =
    if decide (b = timeToBucket e)
    then delete key (bucketAt m (timeToBucket e))
    else bucketAt m b.
Proof.
  unfold Delete, bucketAt.
  destruct (decide (b = timeToBucket e)) as [->|Hne].
  - destruct (m !! timeToBucket e) eqn:Hb.
    + by rewrite lookup_insert_eq.
    + rewrite Hb. simpl. by rewrite delete_empty.
  - destruct (m !! timeToBucket e); [|done]. by rewrite lookup_insert_ne.
Qed.

End WheelFacts.

(** X3.  [Add] with the zero time changes nothing.  With any other
    expiration, the key is afterwards in the bucket of that expiration with
    the given conflict, and no other entry of any bucket is added, removed
    or changed. *)
Theorem Add_puts_entry_in_its_bucket (m : Ttl.expirationMap)
    (key conflict : Z) (expiration : Ttl.Time) :
  (Ttl.IsZero expiration = true -> Ttl.Add m key conflict expiration = m) /\
  (Ttl.IsZero expiration = false ->
     Ttl.bucketAt (Ttl.Add m key conflict expiration)
                  (Ttl.timeToBucket expiration) !! key = Some conflict /\
     forall b k, (b, k) ≠ (Ttl.timeToBucket expiration, key) ->
       Ttl.bucketAt (Ttl.Add m key conflict expiration) b !! k
         = Ttl.bucketAt m b !! k).
Proof.
  split.
  - intros Hz. unfold Ttl.Add. by rewrite Hz.
  - intros Hnz. split.
    + rewrite Add_bucketAt by done. rewrite decide_True by done.
      apply lookup_insert_eq.
    + intros b k Hne. rewrite Add_bucketAt by done.
      destruct (decide (b = Ttl.timeToBucket expiration)) as [->|]; [|done].
      apply lookup_insert_ne. congruence.
Qed.

(** X4.  After [Delete] the key is not in the bucket of the given
    expiration, every other entry of every bucket is as before, and the map
    has the same buckets as before: a bucket is never removed by [Delete],
    even when it becomes empty.  The zero time gets no special treatment:
    [Delete] then works on the bucket of the zero time. *)
Theorem Delete_removes_entry_only (m : Ttl.expirationMap)
    (key : Z) (expiration : Ttl.Time) :
  Ttl.bucketAt (Ttl.Delete m key expiration)
               (Ttl.timeToBucket expiration) !! key = None /\
  (forall b k, (b, k) ≠ (Ttl.timeToBucket expiration, key) ->
     Ttl.bucketAt (Ttl.Delete m key expiration) b !! k
       = Ttl.bucketAt m b !! k) /\
  dom (Ttl.Delete m key expiration) = dom m.
Proof.
  split; [|split].
  - rewrite Delete_bucketAt, decide_True by done. apply lookup_delete_eq.
  - intros b k Hne. rewrite Delete_bucketAt.
    destruct (decide (b = Ttl.timeToBucket expiration)) as [->|]; [|done].
    apply lookup_delete_ne. congruence.
  - unfold Ttl.Delete.
    destruct (m !! Ttl.timeToBucket expiration) eqn:Hb; [|done].
    rewrite dom_insert_L.
    apply subseteq_union_1_L, singleton_subseteq_l, elem_of_dom. eauto.
Qed.

(** X5.  Adding a key that its bucket does not hold and deleting it again
    with the same expiration leaves every bucket with the entries it had;
    and adding a key twice with the same expiration keeps the conflict
    given last. *)
Theorem Add_Delete_round_trip (m : Ttl.expirationMap)
    (key conflict : Z) (expiration : Ttl.Time)
    (Hfresh : Ttl.bucketAt m (Ttl.timeToBucket expiration) !! key = None) :
  (forall b,
     Ttl.bucketAt (Ttl.Delete (Ttl.Add m key conflict expiration) key expiration) b
       = Ttl.bucketAt m b) /\
  (forall conflict' b,
     Ttl.bucketAt (Ttl.Add (Ttl.Add m key conflict expiration)
                           key conflict' expiration) b
       = Ttl.bucketAt (Ttl.Add m key conflict' expiration) b).
Proof.
  destruct (Ttl.IsZero expiration) eqn:Hz.
  - assert (forall c m', Ttl.Add m' key c expiration = m') as Hadd.
    { intros c m'. unfold Ttl.Add. by rewrite Hz. }
    split.
    + intros b. rewrite Hadd, Delete_bucketAt.
      destruct (decide (b = Ttl.timeToBucket expiration)) as [->|]; [|done].
      by apply delete_id.
    + intros conflict' b. by rewrite !Hadd.
  - split.
    + intros b. rewrite Delete_bucketAt.
      destruct (decide (b = Ttl.timeToBucket expiration)) as [->|].
      * rewrite Add_bucketAt, decide_True by done.
        rewrite delete_insert_eq. by apply delete_id.
      * by rewrite Add_bucketAt, decide_False by done.
    + intros conflict' b.
      rewrite (Add_bucketAt (Ttl.Add m key conflict expiration)) by done.
      rewrite (Add_bucketAt m key conflict') by done.
      destruct (decide (b = Ttl.timeToBucket expiration)) as [->|].
      * rewrite Add_bucketAt, decide_True by done. apply insert_insert_eq.
      * by rewrite Add_bucketAt, decide_False by done.
Qed.

Lemma Add_Delete_round_trip_witness :
  Ttl.bucketAt
    (Ttl.Delete (Ttl.Add Demo.wheel1 5 8 (Ttl.utc 3007)) 5 (Ttl.utc 3007)) 1
    = Ttl.bucketAt Demo.wheel1 1.
Proof.
  apply (Add_Delete_round_trip Demo.wheel1 5 8 (Ttl.utc 3007) eq_refl).
Defined.

(** X6.  [CleanUp] leaves every bucket but the one it works on as it was and
    leaves that one absent; when that bucket is absent or empty to begin
    with it makes no call at all and leaves store and policy alone; so a
    second [CleanUp] at the same clock reading does nothing. *)
Theorem CleanUp_frame_and_idempotence {V S P : Type}
    (storeDel : S -> Z -> Z -> S * (Z * V)) (policyCost : P -> Z -> P * Z)
    (rangeOrder : gmap Z Z -> list (Z * Z))
    (Hrange : forall b, rangeOrder b ≡ₚ map_to_list b)
    (m : Ttl.expirationMap) (now : Ttl.Time) (s : S) (p : P)
    (onEvict : option Ttl.callback) :
  let r := Ttl.CleanUp storeDel policyCost rangeOrder m now s p onEvict in
  Ttl.c_buckets r !! Ttl.cleanUpBucket now = None /\
  (forall b, b ≠ Ttl.cleanUpBucket now -> Ttl.c_buckets r !! b = m !! b) /\
  (Ttl.bucketAt m (Ttl.cleanUpBucket now) = ∅ ->
     Ttl.c_calls r = [] /\ Ttl.c_store r = s /\ Ttl.c_policy r = p) /\
  Ttl.CleanUp storeDel policyCost rangeOrder (Ttl.c_buckets r) now
              (Ttl.c_store r) (Ttl.c_policy r) onEvict
    = Ttl.mkCleaned (Ttl.c_buckets r) (Ttl.c_store r) (Ttl.c_policy r) [].
Proof.
  intros r.
  assert (rangeOrder ∅ = []) as Hnil.
  { apply Permutation_nil_r. by rewrite Hrange, map_to_list_empty. }
  assert (forall m' s' p', Ttl.bucketAt m' (Ttl.cleanUpBucket now) = ∅ ->
            Ttl.CleanUp storeDel policyCost rangeOrder m' now s' p' onEvict
              = Ttl.mkCleaned (delete (Ttl.cleanUpBucket now) m') s' p' [])
    as Hempty.
  { intros m' s' p' Hb. unfold Ttl.CleanUp. by rewrite Hb, Hnil. }
  assert (Ttl.c_buckets r = delete (Ttl.cleanUpBucket now) m) as Hbuckets.
  { subst r. by destruct (CleanUp_unfold storeDel policyCost rangeOrder
                            m now s p onEvict) as [-> _]. }
  split; [|split; [|split]].
  - rewrite Hbuckets. apply lookup_delete_eq.
  - intros b Hne. rewrite Hbuckets. by apply lookup_delete_ne.
  - intros Hb. subst r. by rewrite Hempty.
  - rewrite Hempty.
    + rewrite Hbuckets at 1. by rewrite delete_delete_eq, <- Hbuckets.
    + unfold Ttl.bucketAt. by rewrite Hbuckets, lookup_delete_eq.
Qed.

Lemma CleanUp_frame_and_idempotence_witness :
  Ttl.c_buckets (Demo.cleanUp1 Demo.wheel1 (Ttl.utc 66) None)
    !! Ttl.cleanUpBucket (Ttl.utc 66) = None.
Proof.
  apply (CleanUp_frame_and_idempotence Demo.storeDel Demo.policyCost map_to_list
           (fun b => reflexivity (map_to_list b))
           Demo.wheel1 (Ttl.utc 66) Demo.store1 Demo.policy1 None).
Defined.

(** ** The cache coordinator: reading back, deleting, counting *)

Section CacheReadBack.
Import Cache.
Context {V P B Elem : Type}.
Variable env : Collaborators (V := V) (P := P) (B := B) (Elem := Elem).

Local Abbreviation evict' := (Cache.evict (V := V) (P := P) (B := B) (Elem := Elem)).
Local Abbreviation evictAll' := (Cache.evictAll (V := V) (P := P) (B := B) (Elem := Elem)).

Lemma evictAll_data (c : Cache) victims k :
  data (evictAll' c victims).1 !! k =
    if decide (k ∈ victims) then None else data c !! k.
Proof.
  revert c. induction victims as [|victim rest IH]; intros c.
  - by rewrite decide_False by apply not_elem_of_nil.
  - rewrite evictAll_cons_cache, IH. unfold Cache.evict; simpl.
    unfold Map_Del, Store.syncMap_Del.
    destruct (decide (k ∈ rest)) as [Hin|Hout].
    + rewrite decide_True; [done|]. by right.
    + destruct (decide (k = victim)) as [->|Hne].
      * rewrite decide_True by left. apply lookup_delete_eq.
      * rewrite decide_False by (by intros [?|?]%elem_of_cons).
        by apply lookup_delete_ne.
Qed.

Lemma Get_value (nil : V) (c : Cache) key :
  (Get nil env c key).1.1 = Map_Get nil (data c) key.
Proof.
  unfold Get. by destruct (bufPush env (buffer c) (policy c) (Element env key)).
Qed.

Lemma Set_data (c : Cache) key val cost k :
  let pa := policyAdd env (policy c) key cost in
  data (Set_ env c key val cost).1.2 !! k =
    if pa.2.2 then
      if decide (k = key) then Some val
      else if decide (k ∈ pa.2.1) then None else data c !! k
    else data c !! k.
Proof.
  intros pa. rewrite (Set_unfold env c key val cost). fold pa.
  destruct (pa.2.2); simpl negb; cbv iota; [|done].
  assert (forall (p : P) (u : Z), data (mkCache (Map_Set
            (data (evictAll' (mkCache (data c) pa.1 (buffer c) (notify c)
                                (used c) (size c)) pa.2.1).1) key val)
            p (buffer c) (notify c) u (size c)) !! k
          = if decide (k = key) then Some val
            else if decide (k ∈ pa.2.1) then None else data c !! k) as Hdata.
  { intros p u. simpl. unfold Map_Set, Store.syncMap_Set.
    destruct (decide (k = key)) as [->|Hne]; [apply lookup_insert_eq|].
    rewrite lookup_insert_ne by done. by rewrite evictAll_data. }
  destruct (_ =? _); cbn [fst snd]; apply Hdata.
Qed.

Lemma Set_used_range (c : Cache) key val cost :
  GoInt.inU64 (used c) -> GoInt.inU64 (size c) ->
  GoInt.inU64 (used (Set_ env c key val cost).1.2) /\
  size (Set_ env c key val cost).1.2 = size c /\
  notify (Set_ env c key val cost).1.2 = notify c /\
  buffer (Set_ env c key val cost).1.2 = buffer c.
Proof.
  intros Hused Hsize. rewrite (Set_unfold env c key val cost).
  destruct ((policyAdd env (policy c) key cost).2.2); simpl negb; cbv iota;
    [|done].
  destruct (_ =? _); cbn [fst snd used size notify buffer];
    (split; [|done]); unfold GoInt.inU64, GoInt.wrapU64 in *.
  - split; [apply Z.quot_pos; lia|].
    apply Z.le_lt_trans with (size c); [|lia].
    rewrite Z.quot_div_nonneg by lia. apply Z.div_le_upper_bound; lia.
  - apply Z.mod_pos_bound. lia.
Qed.

End CacheReadBack.

(** X7.  After a [Set] that the policy admits, [Get] of the key returns the
    value just set, every evicted victim other than the key reads as nil,
    and every other key reads as before.  After a [Set] that the policy
    rejects, the store and the counter [used] are as before and nothing but
    the policy was called. *)
Theorem Set_then_Get {V P B Elem : Type} (nil : V)
    (env : Cache.Collaborators (V := V) (P := P) (B := B) (Elem := Elem))
    (c : Cache.Cache) (key : string) (val : V) (cost : Z) :
  let pa := Cache.policyAdd env (Cache.policy c) key cost in
  let r := Cache.Set_ env c key val cost in
  (pa.2.2 = true ->
     (Cache.Get nil env r.1.2 key).1.1 = val /\
     (forall victim, victim ∈ pa.2.1 -> victim ≠ key ->
        (Cache.Get nil env r.1.2 victim).1.1 = nil) /\
     (forall other, other ≠ key -> other ∉ pa.2.1 ->
        (Cache.Get nil env r.1.2 other).1.1 = (Cache.Get nil env c other).1.1)) /\
  (pa.2.2 = false ->
     Cache.data r.1.2 = Cache.data c /\
     Cache.used r.1.2 = Cache.used c /\
     r.1.1 = ([], false) /\
     r.2 = [Cache.PolicyAdd key cost]).
Proof.
  intros pa r. split.
  - intros Hadded.
    assert (forall k, Cache.data r.1.2 !! k =
              if decide (k = key) then Some val
              else if decide (k ∈ pa.2.1) then None else Cache.data c !! k)
      as Hdata.
    { intros k. subst r. rewrite (Set_data env c key val cost k).
      fold pa. by rewrite Hadded. }
    unfold Cache.Map_Get, Store.syncMap_Get in *.
    split; [|split].
    + rewrite Get_value. unfold Cache.Map_Get, Store.syncMap_Get.
      by rewrite Hdata, decide_True.
    + intros victim Hin Hne. rewrite Get_value.
      unfold Cache.Map_Get, Store.syncMap_Get.
      by rewrite Hdata, decide_False, decide_True.
    + intros other Hne Hout. rewrite !Get_value.
      unfold Cache.Map_Get, Store.syncMap_Get.
      by rewrite Hdata, !decide_False.
  - intros Hrejected. subst r. rewrite (Set_unfold env c key val cost).
    fold pa. by rewrite Hrejected.
Qed.

(** X8.  After [Del], [Get] of the key returns nil and every other key reads
    as before.  [Del] does not touch the counter [used]: setting an absent
    key (admitted without victims and without a reset) and deleting it again
    gives back the store, but leaves [used] one higher than before. *)
Theorem Del_then_Get {V P B Elem : Type} (nil : V)
    (env : Cache.Collaborators (V := V) (P := P) (B := B) (Elem := Elem))
    (c : Cache.Cache) (key : string) :
  (Cache.Get nil env (Cache.Del env c key).1 key).1.1 = nil /\
  (forall other, other ≠ key ->
     (Cache.Get nil env (Cache.Del env c key).1 other).1.1
       = (Cache.Get nil env c other).1.1) /\
  Cache.used (Cache.Del env c key).1 = Cache.used c /\
  (forall val cost,
     Cache.policyAdd env (Cache.policy c) key cost
       = ((Cache.policyAdd env (Cache.policy c) key cost).1, ([], true)) ->
     GoInt.wrapU64 (Cache.used c + 1) ≠ Cache.size c ->
     Cache.data c !! key = None ->
     let c2 := (Cache.Del env (Cache.Set_ env c key val cost).1.2 key).1 in
     Cache.data c2 = Cache.data c /\
     Cache.used c2 = GoInt.wrapU64 (Cache.used c + 1)).
Proof.
  split; [|split; [|split]].
  - rewrite Get_value. unfold Cache.Del, Cache.Map_Get, Cache.Map_Del,
      Store.syncMap_Get, Store.syncMap_Del. simpl. by rewrite lookup_delete_eq.
  - intros other Hne. rewrite !Get_value.
    unfold Cache.Del, Cache.Map_Get, Cache.Map_Del,
      Store.syncMap_Get, Store.syncMap_Del. simpl.
    by rewrite lookup_delete_ne.
  - done.
  - intros val cost Hadd Hnoreset Hfresh c2. subst c2.
    rewrite (Set_unfold env c key val cost). rewrite Hadd. cbn [fst snd negb length].
    replace (Cache.used c - Z.of_nat 0 + 1) with (Cache.used c + 1) by lia.
    apply Z.eqb_neq in Hnoreset. rewrite Hnoreset.
    cbn [fst snd Cache.Del Cache.data Cache.used Cache.evictAll].
    split; [|done].
    unfold Cache.Map_Del, Cache.Map_Set, Store.syncMap_Del, Store.syncMap_Set.
    rewrite delete_insert_eq. by apply delete_id.
Qed.

(** X9.  Over any run of [Set] calls the cache keeps its size, its callback
    and its buffer, and the counter [used] stays a [uint64] when it and the
    size were to begin with. *)
Theorem SetMany_keeps_shape {V P B Elem : Type}
    (env : Cache.Collaborators (V := V) (P := P) (B := B) (Elem := Elem))
    (c : Cache.Cache) (reqs : list (string * V * Z))
    (Hused : GoInt.inU64 (Cache.used c)) (Hsize : GoInt.inU64 (Cache.size c)) :
  GoInt.inU64 (Cache.used (Cache.SetMany env c reqs).1) /\
  Cache.size (Cache.SetMany env c reqs).1 = Cache.size c /\
  Cache.notify (Cache.SetMany env c reqs).1 = Cache.notify c /\
  Cache.buffer (Cache.SetMany env c reqs).1 = Cache.buffer c /\
  length (Cache.SetMany env c reqs).2 = length reqs.
Proof.
  revert c Hused Hsize.
  induction reqs as [|[[key val] cost] rest IH]; intros c Hused Hsize; [done|].
  simpl.
  destruct (Set_used_range env c key val cost Hused Hsize)
    as (Hu & Hs & Hn & Hb).
  destruct (Cache.Set_ env c key val cost) as [[res c1] calls]. simpl in *.
  specialize (IH c1 Hu). rewrite Hs in IH. specialize (IH Hsize).
  destruct (Cache.SetMany env c1 rest) as [c2 logs]. simpl in *.
  destruct IH as (Hu2 & Hs2 & Hn2 & Hb2 & Hl2).
  split; [done|]. split; [congruence|]. split; [congruence|].
  split; [congruence|]. by rewrite Hl2.
Qed.

Lemma SetMany_keeps_shape_witness :
  GoInt.inU64
    (Cache.used (Cache.SetMany (Demo.env 10) (Demo.cache4 10) Demo.sixSets).1).
Proof.
  apply (SetMany_keeps_shape (Demo.env 10) (Demo.cache4 10) Demo.sixSets).
  - unfold GoInt.inU64. vm_compute. split; [discriminate|reflexivity].
  - unfold GoInt.inU64. vm_compute. split; [discriminate|reflexivity].
Defined.

(** ** Flag strings: panics, normal form, defaults *)

Section FlagShape.
Import Flags SuperFlag.

Lemma writeAll_lookup_elem es k v :
  writeAll ∅ es !! k = Some v -> (k, v) ∈ es.
Proof.
  rewrite writeAll_list_to_map. intros Hkv.
  apply elem_of_list_to_map_2 in Hkv. by rewrite elem_of_reverse in Hkv.
Qed.

Lemma parseFlag_None_iff flag :
  parseFlag flag = None <-> malformed flag ≠ [].
Proof.
  split.
  - intros Hnone Hnil. unfold parseFlag in Hnone.
    rewrite parseFlagLoop_spec in Hnone by (by apply malformed_nil). done.
  - intros Hbad. unfold parseFlag. apply parseFlagLoop_panics.
    unfold malformed in Hbad.
    destruct (filter _ (Split flag ";")) as [|kv rest] eqn:Hf; [done|].
    assert (kv ∈ filter (fun kv => blank kv = false /\ hasByte "=" kv = false)
                        (Split flag ";")) as Hin by (rewrite Hf; left).
    apply list_elem_of_filter in Hin as [[Hb He] Hin]. by exists kv.
Qed.

Lemma parseFlag_Some_entries flag kvm :
  parseFlag flag = Some kvm -> kvm = writeAll ∅ (entries flag).
Proof.
  intros Hsome.
  assert (malformed flag = []) as Hnil.
  { destruct (malformed flag) eqn:Hm; [done|].
    assert (parseFlag flag = None) as Hnone
        by (apply parseFlag_None_iff; congruence).
    congruence. }
  unfold parseFlag in Hsome.
  rewrite parseFlagLoop_spec in Hsome by (by apply malformed_nil).
  by simplify_eq.
Qed.

Lemma normalize_byte c :
  let c' := if Ascii.eqb (lowerByte c) "_" then "-"%char else lowerByte c in
  negb (isUpper c') && negb (Ascii.eqb c' "_") = true /\
  (isSpace c = false -> isSpace c' = false).
Proof.
  destruct c as [[] [] [] [] [] [] [] []]; split; (reflexivity || discriminate).
Qed.

Lemma normalized_key s : normalized (ReplaceAll (ToLower s) "_" "-") = true.
Proof.
  unfold normalized, ReplaceAll, ToLower.
  induction s as [|c rest IH]; [done|].
  simpl. rewrite IH. by destruct (normalize_byte c) as [-> _].
Qed.

Lemma trimLeft_first s c :
  firstByte (trimLeft s) = Some c -> isSpace c = false.
Proof.
  induction s as [|a rest IH]; [done|].
  simpl. destruct (isSpace a) eqn:Ha; [done|].
  simpl. by intros [= <-].
Qed.

Lemma trimRight_first s c :
  firstByte (trimRight s) = Some c -> firstByte s = Some c.
Proof.
  destruct s as [|a rest]; [done|].
  simpl. destruct (trimRight rest); [|done]. by destruct (isSpace a).
Qed.

Lemma trimRight_last s c :
  lastByte (trimRight s) = Some c -> isSpace c = false.
Proof.
  induction s as [|a rest IH]; [done|].
  simpl. destruct (trimRight rest) as [|b rest'] eqn:Hr.
  - destruct (isSpace a) eqn:Ha; [done|]. simpl. by intros [= <-].
  - done.
Qed.

Lemma TrimSpace_trimmed s : trimmed (TrimSpace s) = true.
Proof.
  unfold trimmed, TrimSpace.
  destruct (firstByte (trimRight (trimLeft s))) as [c1|] eqn:H1; [|done].
  destruct (lastByte (trimRight (trimLeft s))) as [c2|] eqn:H2; [|done].
  apply trimRight_first, trimLeft_first in H1. apply trimRight_last in H2.
  by rewrite H1, H2.
Qed.

Lemma mapBytes_first f s :
  firstByte (mapBytes f s) = f <$> firstByte s.
Proof. by destruct s. Qed.

Lemma mapBytes_last f s :
  lastByte (mapBytes f s) = f <$> lastByte s.
Proof.
  induction s as [|a rest IH]; [done|].
  simpl. destruct rest as [|b rest']; [done|]. apply IH.
Qed.

Lemma segmentKey_trimmed kv : trimmed (segmentKey kv) = true.
Proof.
  unfold segmentKey. pose proof (TrimSpace_trimmed (beforeByte "=" kv)) as Ht.
  set (t := TrimSpace (beforeByte "=" kv)) in *.
  unfold trimmed, ReplaceAll, ToLower in *.
  rewrite !mapBytes_first, !mapBytes_last.
  destruct (firstByte t) as [c1|]; [|done].
  destruct (lastByte t) as [c2|]; [|done]. simpl.
  apply andb_true_iff in Ht as [H1 H2].
  apply negb_true_iff in H1, H2.
  pose proof (normalize_byte c1) as [_ Hc1]. pose proof (normalize_byte c2) as [_ Hc2].
  simpl in Hc1, Hc2. by rewrite (Hc1 H1), (Hc2 H2).
Qed.

End FlagShape.




Section MergeFacts.
Import SuperFlag.

Lemma countDown_spec (m : gmap string string) n l :
  countDown m n l =
    n - Z.of_nat (length (filter (fun kv => is_Some (m !! kv.1)) l)).
Proof.
  revert n. induction l as [|[k v] l IH]; intros n; [simpl; lia|].
  unfold countDown in *. simpl. rewrite IH.
  destruct (m !! k) eqn:Hk.
  - rewrite filter_cons_True by (simpl; rewrite Hk; eauto). simpl length. lia.
  - rewrite filter_cons_False; [done|]. simpl. rewrite Hk. by intros [? ?].
Qed.

Lemma fillIn_union (m : gmap string string) l :
  fillIn m l = m ∪ list_to_map l.
Proof.
  revert m. induction l as [|[k v] l IH]; intros m.
  - simpl. by rewrite (right_id_L ∅ (∪)).
  - unfold fillIn in *. simpl. rewrite IH.
    destruct (m !! k) as [old|] eqn:Hk.
    + apply map_eq. intros i. rewrite !lookup_union.
      destruct (decide (i = k)) as [->|Hne].
      * rewrite Hk, lookup_insert_eq. by destruct (list_to_map l !! k).
      * by rewrite lookup_insert_ne.
    + by rewrite <- insert_union_l, insert_union_r.
Qed.

Lemma NoDup_fst_filter {A B} (P : A * B -> Prop) `{!forall x, Decision (P x)}
    (l : list (A * B)) :
  NoDup l.*1 -> NoDup (filter P l).*1.
Proof.
  induction l as [|[a b] l IH]; [done|].
  simpl. intros [Hnotin Hnodup]%NoDup_cons.
  destruct (decide (P (a, b))).
  - rewrite filter_cons_True by done. simpl. apply NoDup_cons. split; [|auto].
    intros Hin. apply Hnotin.
    apply list_elem_of_fmap in Hin as ([a' b'] & -> & Hin).
    apply list_elem_of_filter in Hin as [_ Hin].
    apply list_elem_of_fmap. by exists (a', b').
  - rewrite filter_cons_False by done. auto.
Qed.

(** The keys of [m] that the defaults do not have are what [countDown]
    leaves. *)
Lemma countDown_zero_iff (m src : gmap string string) l :
  l ≡ₚ map_to_list src ->
  countDown m (Z.of_nat (size m)) l = 0 <-> dom m ⊆ dom src.
Proof.
  intros Hperm. rewrite countDown_spec, Hperm.
  set (P := fun kv : string * string => is_Some (m !! kv.1)).
  assert (length (filter P (map_to_list src)) = size (filter P src)) as ->.
  { rewrite map_filter_alt, map_size_list_to_map; [done|].
    apply NoDup_fst_filter, NoDup_fst_map_to_list. }
  assert (forall i, i ∈ dom (filter P src) <-> i ∈ dom m /\ i ∈ dom src) as Hdom.
  { intros i. rewrite !elem_of_dom. unfold is_Some.
    setoid_rewrite map_lookup_filter_Some. unfold P. simpl. split.
    - intros (x & Hx & y & Hy). split; eauto.
    - intros [[y Hy] [x Hx]]. exists x. split; [done|]. by exists y. }
  assert (dom (filter P src) ⊆ dom m) as Hsub by (intros i; rewrite Hdom; tauto).
  pose proof (size_difference _ _ Hsub) as Hdiff.
  pose proof (subseteq_size _ _ Hsub) as Hle.
  rewrite !size_dom in Hdiff, Hle.
  split.
  - intros Hzero. assert (size (dom m ∖ dom (filter P src)) = 0%nat) as Hempty by lia.
    apply size_empty_iff in Hempty. intros i Hi.
    destruct (decide (i ∈ dom (filter P src))) as [Hin|Hout].
    + by apply Hdom in Hin as [_ ?].
    + exfalso. apply (not_elem_of_empty (C := gset string) i).
      rewrite <- Hempty. by apply elem_of_difference.
  - intros Hincl.
    assert (dom m ∖ dom (filter P src) ≡ ∅) as Hempty.
    { intros i. rewrite elem_of_difference, Hdom. split; [|by intros ?%not_elem_of_empty].
      intros [Hi Hn]. exfalso. apply Hn. split; [done|by apply Hincl]. }
    apply size_empty_iff in Hempty. lia.
Qed.

End MergeFacts.



(** ** Allocation accounting over a run of calls *)

Section CallocBatch.
Import Calloc CallocRun.

Lemma wrapI64_add_l a b :
  GoInt.wrapI64 (GoInt.wrapI64 a + b) = GoInt.wrapI64 (a + b).
Proof.
  unfold GoInt.wrapI64. f_equal.
  replace ((a + 2 ^ 63) mod 2 ^ 64 - 2 ^ 63 + b + 2 ^ 63)
    with ((a + 2 ^ 63) mod 2 ^ 64 + b) by lia.
  rewrite Zplus_mod_idemp_l. f_equal. lia.
Qed.

Lemma wrapI64_in z : GoInt.inI64 (GoInt.wrapI64 z).
Proof.
  unfold GoInt.inI64, GoInt.wrapI64.
  pose proof (Z.mod_pos_bound (z + 2 ^ 63) (2 ^ 64)). lia.
Qed.

Lemma Free_wrap x b : Free x b = GoInt.wrapI64 (x - cap b).
Proof.
  unfold Free. rewrite Z.add_comm, wrapI64_add_l. f_equal. lia.
Qed.

Lemma FreeMany_total bs x :
  GoInt.inI64 x -> FreeMany x bs = GoInt.wrapI64 (x - totalCap bs).
Proof.
  revert x. induction bs as [|b bs IH]; intros x Hx.
  - simpl. rewrite Z.sub_0_r. symmetry. by apply wrapI64_id.
  - unfold FreeMany in *. simpl. rewrite IH by (rewrite Free_wrap; apply wrapI64_in).
    rewrite Free_wrap.
    replace (GoInt.wrapI64 (x - cap b) - totalCap bs)
      with (GoInt.wrapI64 (x - cap b) + - totalCap bs) by lia.
    rewrite wrapI64_add_l. f_equal. lia.
Qed.

Lemma totalCap_perm bs bs' : bs ≡ₚ bs' -> totalCap bs = totalCap bs'.
Proof.
  induction 1 as [|b l l' _ IH|a b l|l1 l2 l3 _ IH1 _ IH2]; simpl; lia.
Qed.

Lemma CallocMany_total sizes x :
  GoInt.inI64 x ->
  Forall (fun n => 0 <= n < 2 ^ 63) sizes ->
  exists bs, CallocMany x sizes = (GoInt.wrapI64 (x + total sizes), Some bs) /\
             totalCap bs = total sizes /\
             cap <$> bs = sizes /\ len <$> bs = sizes.
Proof.
  revert x. induction sizes as [|n sizes IH]; intros x Hx Hall.
  - exists []. simpl. rewrite Z.add_0_r, wrapI64_id by done. done.
  - apply Forall_cons in Hall as [Hn Hall].
    destruct (make_zeroes n) as (b & Hmake & Hlen & Hcap & _); [lia|].
    destruct (IH (GoInt.wrapI64 (x + n)) (wrapI64_in _) Hall)
      as (bs & HIH & Ht & Hc & Hl).
    exists (b :: bs). cbn [CallocMany]. unfold Calloc.Calloc.
    rewrite Hmake, HIH. split.
    { unfold total. cbn [foldr]. fold (total sizes).
      rewrite wrapI64_add_l. do 2 f_equal. lia. }
    split.
    { unfold totalCap, total in *. cbn [foldr]. lia. }
    split; rewrite fmap_cons; congruence.
Qed.

End CallocBatch.

(** X13.  A run of [Calloc] calls with sizes that are not negative returns
    one zero-filled slice per size, of that length and capacity, and raises
    the counter by the sum of the sizes (as [int64] addition); freeing all
    the slices returned, in any order, brings the counter back to where it
    was before the run. *)
Theorem Calloc_Free_balance (numBytes : Z) (sizes : list Z)
    (Hcounter : GoInt.inI64 numBytes)
    (Hsizes : Forall (fun n => 0 <= n < 2 ^ 63) sizes) :
  exists bs,
    CallocRun.CallocMany numBytes sizes
      = (GoInt.wrapI64 (numBytes + CallocRun.total sizes), Some bs) /\
    Calloc.cap <$> bs = sizes /\
    Calloc.len <$> bs = sizes /\
    forall bs', bs' ≡ₚ bs ->
      CallocRun.FreeMany (CallocRun.CallocMany numBytes sizes).1 bs' = numBytes.
Proof.
  destruct (CallocMany_total sizes numBytes Hcounter Hsizes)
    as (bs & Hrun & Htotal & Hcap & Hlen).
  exists bs. rewrite Hrun. split; [done|]. split; [done|]. split; [done|].
  intros bs' Hperm. cbn [fst].
  rewrite FreeMany_total by apply wrapI64_in.
  rewrite (totalCap_perm bs' bs Hperm), Htotal.
  by apply wrapI64_cancel.
Qed.

Lemma Calloc_Free_balance_witness :
  exists bs,
    CallocRun.CallocMany 7 [3; 0; 5]
      = (GoInt.wrapI64 (7 + CallocRun.total [3; 0; 5]), Some bs) /\
    Calloc.cap <$> bs = [3; 0; 5].
Proof.
  destruct (Calloc_Free_balance 7 [3; 0; 5]
              ltac:(unfold GoInt.inI64; lia)
              ltac:(repeat constructor; lia))
    as (bs & Hrun & Hcap & _).
  exists bs. split; assumption.
Defined.

(** ** The benchmark's hasher *)

Section HasherFacts.
Import Bench.

Lemma byteOf_range c : 0 <= byteOf c < 256.
Proof.
  unfold byteOf. pose proof (N_ascii_bounded c). lia.
Qed.

Lemma lxor_u64 a b :
  GoInt.inU64 a -> GoInt.inU64 b -> GoInt.inU64 (Z.lxor a b).
Proof.
  unfold GoInt.inU64. intros Ha Hb.
  assert (Z.lxor a b = Z.lxor a b mod 2 ^ 64) as ->.
  { apply Z.bits_inj'. intros n Hn.
    destruct (Z.lt_ge_cases n 64) as [Hlt|Hge].
    - by rewrite Z.mod_pow2_bits_low.
    - rewrite Z.mod_pow2_bits_high by lia. rewrite Z.lxor_spec.
      assert (forall x, 0 <= x < 2 ^ 64 -> Z.testbit x n = false) as Hhigh.
      { intros x Hx. destruct (Z.eq_dec x 0) as [->|Hnz]; [apply Z.bits_0|].
        apply Z.bits_above_log2; [lia|].
        assert (Z.log2 x < 64); [|lia]. apply Z.log2_lt_pow2; lia. }
      by rewrite !Hhigh. }
  apply Z.mod_pos_bound. lia.
Qed.

Lemma sumStep_range h c : GoInt.inU64 (sumStep h c).
Proof.
  unfold GoInt.inU64, sumStep, GoInt.wrapU64. apply Z.mod_pos_bound. lia.
Qed.

Lemma mul_prime_inj x y :
  GoInt.inU64 x -> GoInt.inU64 y ->
  GoInt.wrapU64 (x * 1099511628211) = GoInt.wrapU64 (y * 1099511628211) ->
  x = y.
Proof.
  unfold GoInt.inU64, GoInt.wrapU64. intros Hx Hy Heq.
  assert (forall z, 0 <= z < 2 ^ 64 ->
            ((z * 1099511628211) mod 2 ^ 64 * fnvPrimeInverse) mod 2 ^ 64 = z)
    as Hinv.
  { intros z Hz. rewrite Zmult_mod_idemp_l, <- Z.mul_assoc.
    rewrite <- Zmult_mod_idemp_r.
    replace ((1099511628211 * fnvPrimeInverse) mod 2 ^ 64) with 1 by (by vm_compute).
    rewrite Z.mul_1_r. apply Z.mod_small. lia. }
  rewrite <- (Hinv x Hx), <- (Hinv y Hy). by rewrite Heq.
Qed.

Lemma sumStep_inj_hash h1 h2 c :
  GoInt.inU64 h1 -> GoInt.inU64 h2 -> sumStep h1 c = sumStep h2 c -> h1 = h2.
Proof.
  intros H1 H2 Heq. unfold sumStep in Heq.
  assert (GoInt.inU64 (byteOf c)) as Hc.
  { pose proof (byteOf_range c). unfold GoInt.inU64. lia. }
  apply mul_prime_inj in Heq; [|by apply lxor_u64..].
  apply (f_equal (fun z => Z.lxor z (byteOf c))) in Heq.
  by rewrite !Z.lxor_assoc, Z.lxor_nilpotent, !Z.lxor_0_r in Heq.
Qed.

Lemma sumStep_inj_byte h c1 c2 :
  GoInt.inU64 h -> sumStep h c1 = sumStep h c2 -> c1 = c2.
Proof.
  intros Hh Heq. unfold sumStep in Heq.
  assert (forall c, GoInt.inU64 (byteOf c)) as Hc.
  { intros c. pose proof (byteOf_range c). unfold GoInt.inU64. lia. }
  apply mul_prime_inj in Heq; [|by apply lxor_u64..].
  apply (f_equal (Z.lxor h)) in Heq.
  rewrite <- !Z.lxor_assoc, Z.lxor_nilpotent, !Z.lxor_0_l in Heq.
  unfold byteOf in Heq. apply N2Z.inj in Heq.
  rewrite <- (ascii_N_embedding c1), <- (ascii_N_embedding c2). by rewrite Heq.
Qed.

Lemma sumLoop_range h key : GoInt.inU64 h -> GoInt.inU64 (sumLoop h key).
Proof.
  revert h. induction key as [|c rest IH]; intros h Hh; [done|].
  simpl. apply IH, sumStep_range.
Qed.

Lemma sumLoop_app h s t : sumLoop h (s ++ t) = sumLoop (sumLoop h s) t.
Proof.
  revert h. induction s as [|c rest IH]; intros h; [done|]. simpl. apply IH.
Qed.

Lemma sumLoop_inj h1 h2 key :
  GoInt.inU64 h1 -> GoInt.inU64 h2 ->
  sumLoop h1 key = sumLoop h2 key -> h1 = h2.
Proof.
  revert h1 h2. induction key as [|c rest IH]; intros h1 h2 H1 H2 Heq; [done|].
  simpl in Heq. apply IH in Heq; [|apply sumStep_range..].
  by apply sumStep_inj_hash in Heq.
Qed.

End HasherFacts.

(** X14.  [Sum64] always returns a [uint64]; hashing a key continues the
    hash of any of its prefixes; and two keys that differ in exactly one
    byte, with the same text before and after it, never have the same hash:
    every round of the loop is one-to-one, in the hash so far and in the
    byte. *)
Theorem Sum64_one_byte_apart (before after : string) (c1 c2 : ascii) :
  GoInt.inU64 (Bench.Sum64 (before ++ String c1 after)) /\
  Bench.Sum64 (before ++ String c1 after)
    = Bench.sumLoop (Bench.sumStep (Bench.Sum64 before) c1) after /\
  (Bench.Sum64 (before ++ String c1 after)
     = Bench.Sum64 (before ++ String c2 after) -> c1 = c2).
Proof.
  assert (GoInt.inU64 14695981039346656037) as Hbasis
    by (unfold GoInt.inU64; lia).
  unfold Bench.Sum64. rewrite !sumLoop_app. simpl.
  split; [apply sumLoop_range, sumStep_range|]. split; [done|].
  intros Heq. apply sumLoop_inj in Heq; [|apply sumStep_range..].
  apply sumStep_inj_byte in Heq; [done|]. by apply sumLoop_range.
Qed.
